(** * motile: track-start constraints and node-selection costs

    A shallow embedding of three modules of motile,

    - [motile/variables/node_appear.py]  (module [NodeAppear]),
    - [motile/costs/node_selection.py]   (module [NodeSelection]),
    - [motile/plot.py]                   (module [plot], option handling),

    together with the collaborators they call (the track graph, the solver
    registry, the weights and ilpy's linear constraints), followed by the
    theorems that relate the code to its specification. *)

From Stdlib Require Import ZArith Floats.PrimFloat.
From Stdlib Require Floats.SpecFloat Floats.FloatOps.
From stdpp Require Import base option list functions gmap strings pretty fin_maps.

Local Open Scope Z_scope.

(** * Python values *)

(** Node identifiers are integers; an edge is an ordered pair of nodes.  The
    modules below only ever use them as dictionary keys. *)
Abbreviation NodeId := nat (only parsing).
Abbreviation EdgeId := (nat * nat)%type (only parsing).

(** A column of the ILP: the index of one indicator variable. *)
Abbreviation Column := nat (only parsing).

(** The number type of attribute values, weights and objective coefficients.
    Python multiplies and adds whatever the attribute holds; no algebraic law
    is assumed of the operations, so every general statement below holds for
    binary64 floats as well as for exact numbers. *)
Class Scalar (F : Type) := {
  zero : F;
  one : F;
  add : F → F → F;
  mul : F → F → F
}.

(** Python's [float]: IEEE 754 binary64. *)
#[export] Instance float_Scalar : Scalar float := {|
  zero := 0%float;
  one := 1%float;
  add := PrimFloat.add;
  mul := PrimFloat.mul
|}.

(** ** Exceptions *)

(** What a failed subscript [d[k]] was looking for. *)
Inductive Key :=
| NodeKey (node : NodeId)
| EdgeKey (edge : EdgeId)
| AttrKey (name : string).

Inductive Exception :=
| KeyError (key : Key)
| RuntimeError (msg : string)
| ConfigurationError (name : string).

(** The classes of the exceptions above and of their bases.  [KeyError] and
    [RuntimeError] are Python built-ins; [ConfigurationError] is the
    specification's category for configuration mistakes. *)
Inductive ExceptionClass :=
| cException
| cLookupError
| cKeyError
| cRuntimeError
| cConfigurationError.

#[export] Instance ExceptionClass_eq_dec : EqDecision ExceptionClass.
Proof. solve_decision. Defined.

Definition class_of (e : Exception) : ExceptionClass :=
  match e with
  | KeyError _ => cKeyError
  | RuntimeError _ => cRuntimeError
  | ConfigurationError _ => cConfigurationError
  end.

(** The method resolution order of each class: itself, then its bases. *)
Definition mro (c : ExceptionClass) : list ExceptionClass :=
  match c with
  | cException => [cException]
  | cLookupError => [cLookupError; cException]
  | cKeyError => [cKeyError; cLookupError; cException]
  | cRuntimeError => [cRuntimeError; cException]
  | cConfigurationError => [cConfigurationError; cException]
  end.

Definition isinstance (e : Exception) (c : ExceptionClass) : bool :=
  bool_decide (c ∈ mro (class_of e)).

(** ** Computations that may raise *)

Inductive Result (A : Type) :=
| Ok (a : A)
| Raise (e : Exception).
Arguments Ok {A} a.
Arguments Raise {A} e.

#[export] Instance Result_ret : MRet Result := λ A a, Ok a.
#[export] Instance Result_bind : MBind Result := λ A B f m,
  match m with
  | Ok a => f a
  | Raise e => Raise e
  end.

(** ** Dictionaries that are iterated

    A Python [dict] keeps its insertion order, which is the order [for] and
    [.items()] see; such a dictionary is an association list.  [d[k]] raises
    [KeyError] when [k] is absent. *)
Section Mapping.
Context {K V : Type} `{EqDecision K}.

Fixpoint getitem (d : list (K * V)) (k : K) : option V :=
  match d with
  | [] => None
  | (k', v) :: d' => if decide (k' = k) then Some v else getitem d' k
  end.

Definition subscript (key : K → Key) (d : list (K * V)) (k : K) : Result V :=
  match getitem d k with
  | Some v => Ok v
  | None => Raise (KeyError (key k))
  end.
End Mapping.

(** [x is not None] *)
Definition is_not_None {A : Type} (x : option A) : bool :=
  match x with
  | Some _ => true
  | None => false
  end.

(** A loop whose body may raise, threading the loop-carried value. *)
Fixpoint for_fold {A S : Type} (xs : list A) (body : S → A → Result S) (s : S)
  : Result S :=
  match xs with
  | [] => Ok s
  | x :: xs' => s' ← body s x; for_fold xs' body s'
  end.

(** ** Generators

    What a consumer that drains a generator sees: the values yielded, in
    order, and then either exhaustion ([None]) or the exception that ended
    the iteration. *)
Definition Generator (A : Type) : Type := (list A * option Exception)%type.

(** [for x in xs: <body>] inside a generator function, where one round of the
    body either raises before yielding anything or yields a batch of values. *)
Fixpoint for_yield {A B : Type} (xs : list A) (body : A → Result (list B))
  : Generator B :=
  match xs with
  | [] => ([], None)
  | x :: xs' =>
      match body x with
      | Raise e => ([], Some e)
      | Ok ys => let '(zs, r) := for_yield xs' body in (ys ++ zs, r)
      end
  end.

(** * ilpy: linear constraints

    Every coefficient and right-hand side that [NodeAppear] sets is integral
    ([1.0], [-1.0], a list length and its negation), so [Z] carries them
    exactly. *)
Module ilpy.

Inductive Relation := LessEqual | Equal | GreaterEqual.

(** Modelled from the spec: ilpy is an external library, absent from the
    sources.  By sections 3 and 6 of the specification a linear constraint
    is a mapping from column to coefficient, a relation and a right-hand
    side, with the setters [set_coefficient(column, value)],
    [set_relation] and [set_value]; [set_coefficient] stores the coefficient
    of one column, replacing an earlier one. *)
Record LinearConstraint := {
  coefficients : gmap nat Z;
  relation : Relation;
  value : Z
}.

(** [ilpy.LinearConstraint()] *)
Definition new : LinearConstraint :=
  {| coefficients := ∅; relation := LessEqual; value := 0 |}.

Definition set_coefficient (i : Column) (v : Z) (c : LinearConstraint)
  : LinearConstraint :=
  {| coefficients := <[i := v]> (coefficients c);
     relation := relation c;
     value := value c |}.

Definition set_relation (r : Relation) (c : LinearConstraint)
  : LinearConstraint :=
  {| coefficients := coefficients c; relation := r; value := value c |}.

Definition set_value (v : Z) (c : LinearConstraint) : LinearConstraint :=
  {| coefficients := coefficients c; relation := relation c; value := v |}.

(** The weighted sum of a constraint under an assignment of the columns (the
    glossary's "weighted sum of indicator variables"). *)
Definition lhs (c : LinearConstraint) (sol : Column → Z) : Z :=
  map_fold (λ i a acc, a * sol i + acc) 0 (coefficients c).

(** Whether an assignment satisfies the constraint: its weighted sum stands
    in the constraint's relation to the right-hand side. *)
Definition satisfied (c : LinearConstraint) (sol : Column → Z) : bool :=
  match relation c with
  | LessEqual => lhs c sol <=? value c
  | Equal => lhs c sol =? value c
  | GreaterEqual => lhs c sol >=? value c
  end.

End ilpy.

(** An assignment is feasible for a list of constraints when it satisfies each
    of them. *)
Definition feasible (cs : list ilpy.LinearConstraint) (sol : Column → Z) : bool :=
  forallb (λ c, ilpy.satisfied c sol) cs.

(** An indicator variable takes the value 0 or 1. *)
Definition binary (z : Z) : Prop := z = 0 ∨ z = 1.

(** * The track graph *)

(** Modelled from the spec: the class [TrackGraph] is not part of the sources
    at hand.  Section 6 of the specification asks of the graph collaborator
    an ordered, stable collection of nodes and of edges, each with a mapping
    of named attributes, and section 4.4 the adjacency accessor
    [prev_edges[node]] returning the incoming edges of a node. *)
Record TrackGraph (F : Type) := {
  nodes : list (NodeId * gmap string F);
  edges : list (EdgeId * gmap string F);
  prev_edges : NodeId → list EdgeId
}.
Arguments nodes {F} _.
Arguments edges {F} _.
Arguments prev_edges {F} _ _.

(** * Weights *)

(** Modelled from the spec: the class [Weight] is not part of the sources at
    hand.  Sections 4.1 and 9 of the specification describe it as a tagged
    union of a literal value and a named slot of a shared parameter vector,
    with [resolve()] failing with [ConfigurationError] on an unregistered
    name. *)
Inductive Weight (F : Type) :=
| Literal (value : F)
| Named (name : string).
Arguments Literal {F} value.
Arguments Named {F} name.

(** Modelled from the spec: [Weight.resolve], section 4.1. *)
Definition resolve {F : Type} (parameters : gmap string F) (w : Weight F)
  : Result F :=
  match w with
  | Literal v => Ok v
  | Named name =>
      match parameters !! name with
      | Some v => Ok v
      | None => Raise (ConfigurationError name)
      end
  end.

(** * The solver registry *)

(** The variable modules whose indicators the code at hand reads. *)
Inductive VariableClass := NodeSelected | EdgeSelected | NodeAppear.

(** The graph element that keys the variables of a module. *)
Definition Element (cls : VariableClass) : Type :=
  match cls with
  | NodeSelected => NodeId
  | EdgeSelected => EdgeId
  | NodeAppear => NodeId
  end.

(** Modelled from the spec: the class [Solver] is not part of the sources at
    hand.  By section 4.4 of the specification it holds the graph, for each
    variable module the mapping from element to column that
    [get_variables(module_type)] returns, the objective coefficients that
    [add_variable_cost] accumulates into, and the constraint rows; by section
    4.1 it holds the parameter vector that named weights resolve against. *)
Record Solver (F : Type) := {
  graph : TrackGraph F;
  node_selected : list (NodeId * Column);
  edge_selected : list (EdgeId * Column);
  node_appear : list (NodeId * Column);
  parameters : gmap string F;
  objective : Column → F;
  constraints : list ilpy.LinearConstraint
}.
Arguments graph {F} _.
Arguments node_selected {F} _.
Arguments edge_selected {F} _.
Arguments node_appear {F} _.
Arguments parameters {F} _.
Arguments objective {F} _ _.
Arguments constraints {F} _.

(** Modelled from the spec: [Solver.get_variables], section 4.4: the mapping
    from element to column of one variable module. *)
Definition get_variables {F : Type} (solver : Solver F) (cls : VariableClass)
  : list (Element cls * Column) :=
  match cls with
  | NodeSelected => node_selected solver
  | EdgeSelected => edge_selected solver
  | NodeAppear => node_appear solver
  end.

(** Modelled from the spec: the registry's allocation of columns is not part
    of the sources at hand; by section 4.2 of the specification each element
    returned by a module's [instantiate] receives one fresh column, in the
    order the elements are produced. *)
Definition allocate {K : Type} (elements : list K) (next : Column)
  : list (K * Column) :=
  zip elements (seq next (length elements)).

(** ** Code that mutates the solver

    A method that raises leaves behind what it had already written to the
    solver, so a computation returns the solver it reached together with its
    result or its exception. *)
Record Action (S A : Type) := mkAction { run : S → S * Result A }.
Arguments mkAction {S A} run.
Arguments run {S A} _ _.

#[export] Instance Action_ret {S} : MRet (Action S) := λ A a,
  mkAction (λ s, (s, Ok a)).
#[export] Instance Action_bind {S} : MBind (Action S) := λ A B f m,
  mkAction (λ s,
    match run m s with
    | (s', Ok a) => run (f a) s'
    | (s', Raise e) => (s', Raise e)
    end).

(** Read the current state. *)
Definition get {S : Type} : Action S S := mkAction (λ s, (s, Ok s)).

(** Replace the current state. *)
Definition put {S : Type} (s : S) : Action S unit := mkAction (λ _, (s, Ok tt)).

(** Evaluate an expression that may raise and does not write. *)
Definition lift {S A : Type} (r : Result A) : Action S A :=
  mkAction (λ s, (s, r)).

(** [for x in xs: <body>] over a body that mutates and may raise. *)
Fixpoint for_each {S A : Type} (xs : list A) (body : A → Action S unit)
  : Action S unit :=
  match xs with
  | [] => mret tt
  | x :: xs' => body x ≫= λ _, for_each xs' body
  end.

Section SolverOperations.
Context {F : Type} `{Scalar F}.

(** The solver with its objective coefficients replaced. *)
Definition set_objective (solver : Solver F) (coefficients : Column → F)
  : Solver F :=
  {| graph := graph solver;
     node_selected := node_selected solver;
     edge_selected := edge_selected solver;
     node_appear := node_appear solver;
     parameters := parameters solver;
     objective := coefficients;
     constraints := constraints solver |}.

(** Modelled from the spec: [Solver.add_variable_cost] is not part of the
    sources at hand; by sections 4.3 and 4.4 of the specification it adds
    [weight.resolve() × value] to the objective coefficient of the column:
    [objective[index] += weight.resolve() * value]. *)
Definition add_variable_cost (index : Column) (value : F) (weight : Weight F)
  : Action (Solver F) unit :=
  solver ← get;
  w ← lift (resolve (parameters solver) weight);
  put (set_objective solver
         (<[index := add (objective solver index) (mul w value)]>
            (objective solver))).
End SolverOperations.

(** * [motile/variables/node_appear.py] *)
Module NodeAppear.
Section NodeAppear.
Context {F : Type}.

(** [return solver.graph.nodes]: the node dictionary, a collection of its
    keys. *)
Definition instantiate (solver : Solver F) : list NodeId :=
  (nodes (graph solver)).*1.

(** One round of the [for node in solver.graph.nodes] loop: the constraints
    it yields, unless a subscript raises before the first [yield]. *)
Definition loop_body (solver : Solver F) (node : NodeId)
  : Result (list ilpy.LinearConstraint) :=
  let appear_indicators : list (NodeId * Column) :=
    get_variables solver NodeAppear in
  let node_indicators : list (NodeId * Column) :=
    get_variables solver NodeSelected in
  let edge_indicators : list (EdgeId * Column) :=
    get_variables solver EdgeSelected in
  let prev_edges := prev_edges (graph solver) node in
  let num_prev_edges := Z.of_nat (length prev_edges) in
  if decide (num_prev_edges = 0) then
    let constraint := ilpy.new in
    x ← subscript NodeKey node_indicators node;
    let constraint := ilpy.set_coefficient x 1 constraint in
    a ← subscript NodeKey appear_indicators node;
    let constraint := ilpy.set_coefficient a (-1) constraint in
    let constraint := ilpy.set_relation ilpy.Equal constraint in
    let constraint := ilpy.set_value 0 constraint in
    mret [constraint]
  else
    let constraint1 := ilpy.new in
    let constraint2 := ilpy.new in
    x ← subscript NodeKey node_indicators node;
    let constraint1 := ilpy.set_coefficient x num_prev_edges constraint1 in
    x ← subscript NodeKey node_indicators node;
    let constraint2 := ilpy.set_coefficient x num_prev_edges constraint2 in
    both ← for_fold prev_edges
      (λ '(constraint1, constraint2) prev_edge,
         e ← subscript EdgeKey edge_indicators prev_edge;
         let constraint1 := ilpy.set_coefficient e (-1) constraint1 in
         e ← subscript EdgeKey edge_indicators prev_edge;
         let constraint2 := ilpy.set_coefficient e (-1) constraint2 in
         mret (constraint1, constraint2))
      (constraint1, constraint2);
    let '(constraint1, constraint2) := both in
    a ← subscript NodeKey appear_indicators node;
    let constraint1 := ilpy.set_coefficient a (-1) constraint1 in
    a ← subscript NodeKey appear_indicators node;
    let constraint2 :=
      ilpy.set_coefficient a (- num_prev_edges) constraint2 in
    let constraint1 := ilpy.set_relation ilpy.LessEqual constraint1 in
    let constraint2 := ilpy.set_relation ilpy.GreaterEqual constraint2 in
    let constraint1 := ilpy.set_value (num_prev_edges - 1) constraint1 in
    let constraint2 := ilpy.set_value 0 constraint2 in
    mret [constraint1; constraint2].

Definition instantiate_constraints (solver : Solver F)
  : Generator ilpy.LinearConstraint :=
  for_yield (nodes (graph solver)).*1 (loop_body solver).

End NodeAppear.
End NodeAppear.

(** * [motile/costs/node_selection.py] *)
Module NodeSelection.
Section NodeSelection.
Context {F : Type} `{Scalar F}.

Record t := {
  weight : Weight F;
  constant : Weight F;
  attribute : string
}.

(** [attribute] defaults to ["costs"] and [constant] to [0.0]. *)
Definition __init__ (weight : F) (attribute : option string)
    (constant : option F) : t :=
  {| weight := Literal weight;
     constant := Literal (default zero constant);
     attribute := default "costs"%string attribute |}.

(** [solver.graph.nodes[node][self.attribute]] *)
Definition node_attribute (solver : Solver F) (node : NodeId) (name : string)
  : Result F :=
  attrs ← subscript NodeKey (nodes (graph solver)) node;
  match attrs !! name with
  | Some v => Ok v
  | None => Raise (KeyError (AttrKey name))
  end.

(** One round of the [for node, index in node_variables.items()] loop.  The
    arguments of the first call are evaluated, the attribute among them,
    before the call is made. *)
Definition loop_body (self : t) (item : NodeId * Column)
  : Action (Solver F) unit :=
  let '(node, index) := item in
  solver ← get;
  value ← lift (node_attribute solver node (attribute self));
  add_variable_cost index value (weight self);;
  add_variable_cost index one (constant self).

Definition apply (self : t) : Action (Solver F) unit :=
  solver ← get;
  let node_variables : list (NodeId * Column) :=
    get_variables solver NodeSelected in
  for_each node_variables (loop_body self).

End NodeSelection.
Arguments t F : clear implicits.
End NodeSelection.

(** * [motile/plot.py] *)
Module plot.

(** A callable option of [draw_track_graph]: one function used for nodes and
    for edges alike, or a tuple of a node function and an edge function. *)
Inductive Callables (A : Type) :=
| Callable (func : NodeId + EdgeId → Result A)
| Tuple (node_func : NodeId → Result A) (edge_func : EdgeId → Result A).
Arguments Callable {A} func.
Arguments Tuple {A} node_func edge_func.

(** [str(node)] and [str(edge)] *)
Definition str_node (node : NodeId) : string := pretty node.
Definition str_edge (edge : EdgeId) : string :=
  "(" +:+ pretty edge.1 +:+ ", " +:+ pretty edge.2 +:+ ")".

Section plot.
Context {F : Type} `{Scalar F}.

(** The figure type and everything [draw_track_graph] does once its options
    are settled (lines 134 to 254: the plotly calls) are external; [Style]
    stands for the pass-through arguments [node_size], [node_color],
    [edge_color], [width] and [height]. *)
Context {Figure Style : Type}.
Variable draw :
  TrackGraph F →
  (NodeId → Result F) →
  (NodeId → Result F) → (EdgeId → Result F) →
  (NodeId → Result (F + string)) → (EdgeId → Result (F + string)) →
  Style → Result Figure.

(** [try: f, g = func / except TypeError: f = g = func] *)
Definition unpack {A : Type} (func : Callables A)
  : (NodeId → Result A) * (EdgeId → Result A) :=
  match func with
  | Tuple node_func edge_func => (node_func, edge_func)
  | Callable func => (λ node, func (inl node), λ edge, func (inr edge))
  end.

Definition draw_track_graph (graph : TrackGraph F)
    (position_attribute : option string)
    (position_func : option (NodeId → Result F))
    (alpha_attribute : option string)
    (alpha_func : option (Callables F))
    (label_attribute : option string)
    (label_func : option (Callables (F + string)))
    (style : Style) : Result Figure :=
  if is_not_None position_attribute && is_not_None position_func then
    Raise (RuntimeError
      "Only one of position_attribute and position_func can be given")
  else
  let position_attribute := default "x"%string position_attribute in
  let position_func :=
    default
      (λ node,
         attrs ← subscript NodeKey (nodes graph) node;
         match attrs !! position_attribute with
         | Some v => Ok v
         | None => Raise (KeyError (AttrKey position_attribute))
         end)
      position_func in
  if is_not_None alpha_attribute && is_not_None alpha_func then
    Raise (RuntimeError
      "Only one of alpha_attribute and alpha_func can be given")
  else
  let '(alpha_node_func, alpha_edge_func) :=
    match alpha_attribute, alpha_func with
    | Some alpha_attribute, _ =>
        (λ node,
           attrs ← subscript NodeKey (nodes graph) node;
           mret (default one (attrs !! alpha_attribute)),
         λ edge,
           attrs ← subscript EdgeKey (edges graph) edge;
           mret (default one (attrs !! alpha_attribute)))
    | None, None => (λ _, Ok one, λ _, Ok one)
    | None, Some alpha_func => unpack alpha_func
    end in
  if is_not_None label_attribute && is_not_None label_func then
    Raise (RuntimeError
      "Only one of label_attribute and label_func can be given")
  else
  let '(label_node_func, label_edge_func) :=
    match label_attribute, label_func with
    | Some label_attribute, _ =>
        (λ node,
           attrs ← subscript NodeKey (nodes graph) node;
           mret (from_option inl (inr ""%string) (attrs !! label_attribute)),
         λ edge,
           attrs ← subscript EdgeKey (edges graph) edge;
           mret (from_option inl (inr ""%string) (attrs !! label_attribute)))
    | None, None =>
        (λ node, Ok (inr (str_node node)), λ edge, Ok (inr (str_edge edge)))
    | None, Some label_func => unpack label_func
    end in
  draw graph position_func alpha_node_func alpha_edge_func
    label_node_func label_edge_func style.

(** [draw_solution(graph, solver, **kwargs)], for a call that passes the
    options of [draw_track_graph] by keyword ([*args] empty).  Whatever the
    caller has put under [alpha_func] is replaced.

    Modelled from the spec: the attribute [solver.solution] belongs to the
    class [Solver], which is not part of the sources at hand; by section 6
    of the specification it is, after solving, a mapping from column to
    value, taken here as the argument [solution]. *)
Definition draw_solution (graph : TrackGraph F) (solver : Solver F)
    (solution : Column → F)
    (position_attribute : option string)
    (position_func : option (NodeId → Result F))
    (alpha_attribute : option string)
    (alpha_func : option (Callables F))
    (label_attribute : option string)
    (label_func : option (Callables (F + string)))
    (style : Style) : Result Figure :=
  let node_indicators : list (NodeId * Column) :=
    get_variables solver NodeSelected in
  let edge_indicators : list (EdgeId * Column) :=
    get_variables solver EdgeSelected in
  let node_alpha_func := λ node,
    index ← subscript NodeKey node_indicators node;
    mret (solution index) in
  let edge_alpha_func := λ edge,
    index ← subscript EdgeKey edge_indicators edge;
    mret (solution index) in
  let alpha_func := Some (Tuple node_alpha_func edge_alpha_func) in
  draw_track_graph graph position_attribute position_func
    alpha_attribute alpha_func label_attribute label_func style.

End plot.

(** ** Colours *)

(** The built-in exceptions that the arithmetic and the indexing of
    [to_rgba] raise. *)
Inductive ColorError := IndexError | ValueError | OverflowError.

Inductive Checked (A : Type) :=
| Done (a : A)
| Failed (e : ColorError).
Arguments Done {A} a.
Arguments Failed {A} e.

#[global] Instance Checked_ret : MRet Checked := λ A a, Done a.
#[global] Instance Checked_bind : MBind Checked := λ A B f m,
  match m with
  | Done a => f a
  | Failed e => Failed e
  end.
#[global] Instance Checked_fmap : FMap Checked := λ A B f m,
  match m with
  | Done a => Done (f a)
  | Failed e => Failed e
  end.

(** A colour is a tuple of integer channels or a list of colours; an alpha
    value is a float or a list of alpha values; the result is a string or a
    list of results. *)
Inductive Color :=
| ColorTuple (channels : list Z)
| ColorList (colors : list Color).

Inductive Alpha :=
| AlphaValue (alpha : float)
| AlphaList (alphas : list Alpha).

Inductive Rgba :=
| Str (s : string)
| StrList (l : list Rgba).

(** The conversion of an [int] operand of a float operation: the nearest
    binary64, ties to even; [OverflowError] when the integer is too large. *)
Definition float_of_int (n : Z) : Checked float :=
  let x :=
    FloatOps.SF2Prim
      (SpecFloat.binary_normalize FloatOps.prec FloatOps.emax n 0 false) in
  if PrimFloat.is_infinity x then Failed OverflowError else Done x.

(** [int(x)]: truncation towards zero; [ValueError] on NaN and
    [OverflowError] on an infinity. *)
Definition int_of_float (x : float) : Checked Z :=
  match FloatOps.Prim2SF x with
  | SpecFloat.S754_zero _ => Done 0
  | SpecFloat.S754_infinity _ => Failed OverflowError
  | SpecFloat.S754_nan => Failed ValueError
  | SpecFloat.S754_finite s m e =>
      let magnitude := Z.shiftl (Z.pos m) e in
      Done (if s then - magnitude else magnitude)
  end.

(** [int(c * alpha + 220 * (1.0 - alpha))] *)
Definition mix (c : Z) (alpha : float) : Checked Z :=
  c' ← float_of_int c;
  int_of_float (c' * alpha + 220 * (1 - alpha))%float.

(** A comprehension whose element expression may raise. *)
Fixpoint comprehension {A B : Type} (f : A → Checked B) (xs : list A)
  : Checked (list B) :=
  match xs with
  | [] => Done []
  | x :: xs' => y ← f x; ys ← comprehension f xs'; Done (y :: ys)
  end.

(** The last two lines of [to_rgba]: mix every channel with white(ish), then
    format the first three. *)
Definition to_rgb (channels : list Z) (alpha : float) : Checked Rgba :=
  color ← comprehension (λ c, mix c alpha) channels;
  match color with
  | r :: g :: b :: _ =>
      Done (Str ("rgb(" +:+ pretty r +:+ "," +:+ pretty g +:+ ","
                 +:+ pretty b +:+ ")"))
  | _ => Failed IndexError
  end.

(** [to_rgba(color, alpha)] on a [color] that is not a list. *)
Fixpoint to_rgba_tuple (channels : list Z) (alpha : Alpha) : Checked Rgba :=
  match alpha with
  | AlphaList alphas =>
      StrList <$>
        (fix each (alphas : list Alpha) : Checked (list Rgba) :=
           match alphas with
           | [] => Done []
           | a :: alphas' =>
               r ← to_rgba_tuple channels a;
               rs ← each alphas';
               Done (r :: rs)
           end) alphas
  | AlphaValue alpha => to_rgb channels alpha
  end.

Fixpoint to_rgba (color : Color) (alpha : Alpha) : Checked Rgba :=
  match color with
  | ColorList colors =>
      match alpha with
      | AlphaList alphas =>
          StrList <$>
            (fix each (colors : list Color) (alphas : list Alpha)
               : Checked (list Rgba) :=
               match colors, alphas with
               | c :: colors', a :: alphas' =>
                   r ← to_rgba c a;
                   rs ← each colors' alphas';
                   Done (r :: rs)
               | _, _ => Done []
               end) colors alphas
      | AlphaValue _ =>
          StrList <$>
            (fix each (colors : list Color) : Checked (list Rgba) :=
               match colors with
               | [] => Done []
               | c :: colors' =>
                   r ← to_rgba c alpha;
                   rs ← each colors';
                   Done (r :: rs)
               end) colors
      end
  | ColorTuple channels => to_rgba_tuple channels alpha
  end.

(** [to_rgba(color)]: [alpha] defaults to [1.0]. *)
Definition to_rgba_default (color : Color) : Checked Rgba :=
  to_rgba color (AlphaValue 1%float).

End plot.

(** * Reading a compiled model *)
Section Model.
Context {F : Type}.

(** Every column the registry has handed out, module by module. *)
Definition columns (solver : Solver F) : list Column :=
  (node_selected solver).*2 ++ (edge_selected solver).*2
    ++ (node_appear solver).*2.

(** The invariants a compilation establishes before [NodeAppear] builds its
    constraints (sections 3, 4.4 and 8 of the specification): no column is
    handed out twice, the incoming edges of a node form a set, and every
    node and every incoming edge has its indicators. *)
Definition well_formed (solver : Solver F) : bool :=
  bool_decide (NoDup (columns solver))
  && forallb
       (λ node,
          bool_decide (NoDup (prev_edges (graph solver) node))
          && is_not_None (getitem (node_selected solver) node)
          && is_not_None (getitem (node_appear solver) node)
          && forallb
               (λ edge, is_not_None (getitem (edge_selected solver) edge))
               (prev_edges (graph solver) node))
       (nodes (graph solver)).*1.

(** The value an assignment gives to the indicator of an element. *)
Definition indicator {K : Type} `{EqDecision K} (variables : list (K * Column))
    (sol : Column → Z) (k : K) : Z :=
  match getitem variables k with
  | Some c => sol c
  | None => 0
  end.

(** [x_v]: whether the assignment selects the node. *)
Definition selected (solver : Solver F) (sol : Column → Z) (node : NodeId)
  : Z :=
  indicator (node_selected solver) sol node.

(** [e_1 .. e_k]: the values of the incoming-edge indicators of the node. *)
Definition incoming (solver : Solver F) (sol : Column → Z) (node : NodeId)
  : list Z :=
  indicator (edge_selected solver) sol <$> prev_edges (graph solver) node.

(** The assignment with the appear indicator of the node set to [a]. *)
Definition set_appear (solver : Solver F) (node : NodeId) (a : Z)
    (sol : Column → Z) : Column → Z :=
  match getitem (node_appear solver) node with
  | Some c => <[c := a]> sol
  | None => sol
  end.

(** Two solvers that differ at most in their objective coefficients. *)
Definition same_model (solver solver' : Solver F) : Prop :=
  graph solver' = graph solver
  ∧ node_selected solver' = node_selected solver
  ∧ edge_selected solver' = edge_selected solver
  ∧ node_appear solver' = node_appear solver
  ∧ parameters solver' = parameters solver
  ∧ constraints solver' = constraints solver.
End Model.

Definition sum_list (zs : list Z) : Z := foldr Z.add 0 zs.

(** What the [for prev_edge in prev_edges] loop makes of a constraint when the
    edges have the columns [cols]. *)
Definition set_edges (cols : list Column) (c : ilpy.LinearConstraint)
  : ilpy.LinearConstraint :=
  foldl (λ c col, ilpy.set_coefficient col (-1) c) c cols.

(** The start of a track: the node is selected and none of its incoming edges
    is. *)
Definition starts (x : Z) (es : list Z) : bool :=
  (x =? 1) && forallb (λ e, e =? 0) es.

(** The assignment that keeps the node and edge indicators of [sol] and sets
    every appear indicator to the track-start indicator of its node. *)
Definition appear_assignment {F : Type} (solver : Solver F) (sol : Column → Z)
  : Column → Z :=
  λ col,
    match list_find (λ item, item.2 = col) (node_appear solver) with
    | Some (_, (node, _)) =>
        if starts (selected solver sol node) (incoming solver sol node)
        then 1 else 0
    | None => sol col
    end.

(** * The chain [A → B → C]

    Nodes [A = 0], [B = 1], [C = 2], each with cost attribute [1.0]; edges
    [(A, B)] and [(B, C)].  Columns are allocated module by module:
    [NodeSelected] gets 0..2, [EdgeSelected] 3..4, [NodeAppear] 5..7. *)
Module Chain.

Definition A : NodeId := 0%nat.
Definition B : NodeId := 1%nat.
Definition C : NodeId := 2%nat.

Definition attrs : gmap string float := {[ "costs"%string := 1%float ]}.

Definition track_graph : TrackGraph float := {|
  nodes := [(A, attrs); (B, attrs); (C, attrs)];
  edges := [((A, B), ∅); ((B, C), ∅)];
  prev_edges := λ node,
    if decide (node = B) then [(A, B)]
    else if decide (node = C) then [(B, C)]
    else []
|}.

Definition solver : Solver float := {|
  graph := track_graph;
  node_selected := allocate (nodes track_graph).*1 0;
  edge_selected := allocate (edges track_graph).*1 3;
  node_appear := allocate (nodes track_graph).*1 5;
  parameters := ∅;
  objective := λ _, 0%float;
  constraints := []
|}.

(** [NodeSelection(weight=2.0, constant=0.5)] *)
Definition costs : NodeSelection.t float :=
  NodeSelection.__init__ 2%float None (Some 0.5%float).

(** An assignment given by the list of the elements it selects; the appear
    indicators are left at 0. *)
Definition select (selected_nodes : list NodeId) (selected_edges : list EdgeId)
  : Column → Z :=
  λ c,
    if bool_decide (c ∈ omap (getitem (node_selected solver)) selected_nodes)
       || bool_decide
            (c ∈ omap (getitem (edge_selected solver)) selected_edges)
    then 1 else 0.

(** Selecting only node [A] and edge [(A, B)]. *)
Definition only_A_and_AB : Column → Z := select [A] [(A, B)].

(** Selecting nodes [A] and [B] and edge [(A, B)]. *)
Definition A_B_and_AB : Column → Z := select [A; B] [(A, B)].

(** The same chain where node [B] has lost its cost attribute. *)
Definition track_graph_without_B_costs : TrackGraph float := {|
  nodes := [(A, attrs); (B, ∅); (C, attrs)];
  edges := edges track_graph;
  prev_edges := prev_edges track_graph
|}.

Definition solver_without_B_costs : Solver float := {|
  graph := track_graph_without_B_costs;
  node_selected := node_selected solver;
  edge_selected := edge_selected solver;
  node_appear := node_appear solver;
  parameters := ∅;
  objective := λ _, 0%float;
  constraints := []
|}.

(** The chain registry without the NodeSelected column of [B]. *)
Definition solver_without_B_selected : Solver float := {|
  graph := track_graph;
  node_selected := [(A, 0%nat); (C, 2%nat)];
  edge_selected := edge_selected solver;
  node_appear := node_appear solver;
  parameters := ∅;
  objective := λ _, 0%float;
  constraints := []
|}.

(** The chain registry without the EdgeSelected column of [(B, C)]. *)
Definition solver_without_BC_selected : Solver float := {|
  graph := track_graph;
  node_selected := node_selected solver;
  edge_selected := [((A, B), 3%nat)];
  node_appear := node_appear solver;
  parameters := ∅;
  objective := λ _, 0%float;
  constraints := []
|}.


(** A drawing back end that draws nothing. *)
Definition draw_nothing :
  TrackGraph float →
  (NodeId → Result float) →
  (NodeId → Result float) → (EdgeId → Result float) →
  (NodeId → Result (float + string)) → (EdgeId → Result (float + string)) →
  unit → Result unit :=
  λ _ _ _ _ _ _ _, Ok tt.

End Chain.

(** * Facts about the collaborators *)

Lemma bind_Ok {A B : Type} (a : A) (f : A → Result B) : (Ok a ≫= f) = f a.
Proof. reflexivity. Qed.

Lemma bind_Raise {A B : Type} (e : Exception) (f : A → Result B) :
  (Raise e ≫= f) = Raise e.
Proof. reflexivity. Qed.

Section MappingFacts.
Context {K V : Type} `{EqDecision K}.
Implicit Types (d : list (K * V)) (k : K) (v : V).

Lemma getitem_elem_of d k v : getitem d k = Some v → (k, v) ∈ d.
Proof.
  induction d as [|[k' v'] d IH]; simpl; [done|].
  destruct (decide (k' = k)) as [->|Hne].
  - intros [= ->]. apply list_elem_of_here.
  - intros Hd. apply list_elem_of_further, IH, Hd.
Qed.

Lemma getitem_value d k v : getitem d k = Some v → v ∈ d.*2.
Proof.
  intros Hd%getitem_elem_of. apply list_elem_of_fmap. by exists (k, v).
Qed.

Lemma getitem_is_Some d k : k ∈ d.*1 → is_Some (getitem d k).
Proof.
  induction d as [|[k' v'] d IH]; simpl.
  - by intros ?%elem_of_nil.
  - destruct (decide (k' = k)) as [|Hne]; [eauto|].
    intros [Heq|Hin]%elem_of_cons; [by destruct Hne | auto].
Qed.

Lemma getitem_None d k : k ∉ d.*1 → getitem d k = None.
Proof.
  induction d as [|[k' v'] d IH]; simpl; [done|].
  intros Hnin. apply not_elem_of_cons in Hnin as [Hne Hnin].
  destruct (decide (k' = k)); [congruence | auto].
Qed.

(** A value that occurs once in a dictionary determines its key. *)
Lemma elem_of_snd_inj d k1 k2 v :
  NoDup d.*2 → (k1, v) ∈ d → (k2, v) ∈ d → k1 = k2.
Proof.
  induction d as [|[k' v'] d IH]; simpl.
  - by intros _ ?%elem_of_nil.
  - intros [Hnin Hnd]%NoDup_cons H1 H2.
    apply elem_of_cons in H1 as [H1|H1];
      apply elem_of_cons in H2 as [H2|H2]; simplify_eq; [done| | |by eauto].
    + contradict Hnin. apply list_elem_of_fmap. by exists (k2, v').
    + contradict Hnin. apply list_elem_of_fmap. by exists (k1, v').
Qed.

Lemma getitem_inj d k1 k2 v :
  NoDup d.*2 → getitem d k1 = Some v → getitem d k2 = Some v → k1 = k2.
Proof. eauto using elem_of_snd_inj, getitem_elem_of. Qed.

Lemma subscript_Some key d k v :
  getitem d k = Some v → subscript key d k = Ok v.
Proof. unfold subscript. by intros ->. Qed.

Lemma subscript_None key d k :
  getitem d k = None → subscript key d k = Raise (KeyError (key k)).
Proof. unfold subscript. by intros ->. Qed.

Lemma is_not_None_Some (x : option V) : is_not_None x = true → is_Some x.
Proof. destruct x; [eauto | done]. Qed.
End MappingFacts.

Lemma sum_list_binary (zs : list Z) :
  Forall binary zs → 0 ≤ sum_list zs ≤ Z.of_nat (length zs).
Proof.
  induction 1 as [|z zs [-> | ->] _ IH]; simpl; lia.
Qed.

Lemma sum_list_zero (zs : list Z) :
  Forall binary zs → (sum_list zs = 0 ↔ forallb (λ e, e =? 0) zs = true).
Proof.
  induction 1 as [|z zs Hz Hzs IH]; simpl; [done|].
  pose proof (sum_list_binary zs Hzs).
  rewrite andb_true_iff, <- IH, Z.eqb_eq. destruct Hz as [-> | ->]; lia.
Qed.

Section IlpyFacts.
Implicit Types (c : ilpy.LinearConstraint) (sol : Column → Z).

Lemma lhs_new sol : ilpy.lhs ilpy.new sol = 0.
Proof. unfold ilpy.lhs. simpl. apply map_fold_empty. Qed.

Lemma lhs_set_coefficient c i v sol :
  ilpy.coefficients c !! i = None →
  ilpy.lhs (ilpy.set_coefficient i v c) sol = v * sol i + ilpy.lhs c sol.
Proof.
  intros Hi. unfold ilpy.lhs. simpl.
  rewrite map_fold_insert_L; [done | intros; lia | done].
Qed.

Lemma lhs_set_relation c r sol :
  ilpy.lhs (ilpy.set_relation r c) sol = ilpy.lhs c sol.
Proof. reflexivity. Qed.

Lemma lhs_set_value c v sol :
  ilpy.lhs (ilpy.set_value v c) sol = ilpy.lhs c sol.
Proof. reflexivity. Qed.

Lemma coefficients_set_edges cols c j :
  ilpy.coefficients (set_edges cols c) !! j
  = if decide (j ∈ cols) then Some (-1) else ilpy.coefficients c !! j.
Proof.
  revert c. induction cols as [|col cols IH]; intros c.
  - destruct (decide (j ∈ [])) as [[]%elem_of_nil|]; done.
  - change (set_edges (col :: cols) c)
      with (set_edges cols (ilpy.set_coefficient col (-1) c)).
    rewrite IH. simpl.
    destruct (decide (j ∈ cols)) as [Hin|Hnin],
      (decide (j ∈ col :: cols)) as [Hin'|Hnin']; try done.
    + contradict Hnin'. by apply list_elem_of_further.
    + apply elem_of_cons in Hin' as [->|?]; [|done].
      apply lookup_insert_eq.
    + rewrite lookup_insert_ne; [done|].
      intros ->. apply Hnin', list_elem_of_here.
Qed.

Lemma lhs_set_edges cols c sol :
  NoDup cols →
  (∀ j, j ∈ cols → ilpy.coefficients c !! j = None) →
  ilpy.lhs (set_edges cols c) sol = ilpy.lhs c sol - sum_list (sol <$> cols).
Proof.
  revert c. induction cols as [|col cols IH]; intros c Hnd Hfresh.
  - unfold set_edges, sum_list. simpl. lia.
  - apply NoDup_cons in Hnd as [Hnin Hnd].
    change (set_edges (col :: cols) c)
      with (set_edges cols (ilpy.set_coefficient col (-1) c)).
    change (sum_list (sol <$> col :: cols))
      with (sol col + sum_list (sol <$> cols)).
    rewrite IH; [|done|].
    + rewrite lhs_set_coefficient; [lia|].
      apply Hfresh, list_elem_of_here.
    + intros j Hj. simpl. rewrite lookup_insert_ne.
      * by apply Hfresh, list_elem_of_further.
      * by intros ->.
Qed.
End IlpyFacts.

Section GeneratorFacts.
Context {A B : Type}.

(** A generator loop none of whose rounds raises yields the batches of all
    rounds, in order, and is then exhausted. *)
Lemma for_yield_exhausted (xs : list A) (body : A → Result (list B)) :
  Forall (λ x, ∃ ys, body x = Ok ys) xs →
  for_yield xs body
  = (xs ≫= (λ x, match body x with Ok ys => ys | Raise _ => [] end), None).
Proof.
  induction 1 as [|x xs [ys Hx] _ IH]; simpl; [done|].
  rewrite Hx, IH. reflexivity.
Qed.

(** Whatever a generator loop yields was yielded by one of its rounds. *)
Lemma for_yield_elem_of (xs : list A) (body : A → Result (list B)) (y : B) :
  y ∈ (for_yield xs body).1 → ∃ x ys, x ∈ xs ∧ body x = Ok ys ∧ y ∈ ys.
Proof.
  induction xs as [|x xs IH]; simpl.
  - by intros ?%elem_of_nil.
  - destruct (body x) as [ys|e] eqn:Hx; simpl.
    + destruct (for_yield xs body) as [zs r]. simpl in *.
      intros [Hy|Hy]%elem_of_app.
      * exists x, ys. split_and!; [apply list_elem_of_here | done | done].
      * destruct (IH Hy) as (x' & ys' & ? & ? & ?).
        exists x', ys'. split_and!; [by apply list_elem_of_further | done | done].
    + by intros ?%elem_of_nil.
Qed.
End GeneratorFacts.

Section NodeAppearFacts.
Context {F : Type}.
Implicit Types (solver : Solver F) (node : NodeId).

Lemma for_fold_prev_edges (edge_indicators : list (EdgeId * Column))
    (es : list EdgeId) (cols : list Column) (c1 c2 : ilpy.LinearConstraint) :
  Forall2 (λ e col, getitem edge_indicators e = Some col) es cols →
  for_fold es
    (λ '(constraint1, constraint2) prev_edge,
       e ← subscript EdgeKey edge_indicators prev_edge;
       let constraint1 := ilpy.set_coefficient e (-1) constraint1 in
       e ← subscript EdgeKey edge_indicators prev_edge;
       let constraint2 := ilpy.set_coefficient e (-1) constraint2 in
       mret (constraint1, constraint2))
    (c1, c2)
  = Ok (set_edges cols c1, set_edges cols c2).
Proof.
  intros Hcols. revert c1 c2.
  induction Hcols as [|e col es cols He _ IH]; intros c1 c2; simpl; [done|].
  rewrite (subscript_Some _ _ _ _ He). simpl. apply IH.
Qed.

(** The loop body on a node without incoming edges. *)
Lemma loop_body_no_prev_edges solver node cx ca :
  prev_edges (graph solver) node = [] →
  getitem (node_selected solver) node = Some cx →
  getitem (node_appear solver) node = Some ca →
  NodeAppear.loop_body solver node
  = Ok [ilpy.set_value 0 (ilpy.set_relation ilpy.Equal
          (ilpy.set_coefficient ca (-1)
             (ilpy.set_coefficient cx 1 ilpy.new)))].
Proof.
  intros Hprev Hx Ha. unfold NodeAppear.loop_body. rewrite Hprev. simpl.
  rewrite (subscript_Some _ _ _ _ Hx), (subscript_Some _ _ _ _ Ha).
  reflexivity.
Qed.

(** The loop body on a node with incoming edges. *)
Lemma loop_body_prev_edges solver node cx ca cols :
  prev_edges (graph solver) node ≠ [] →
  getitem (node_selected solver) node = Some cx →
  getitem (node_appear solver) node = Some ca →
  Forall2 (λ e col, getitem (edge_selected solver) e = Some col)
    (prev_edges (graph solver) node) cols →
  let k := Z.of_nat (length (prev_edges (graph solver) node)) in
  NodeAppear.loop_body solver node
  = Ok [ilpy.set_value (k - 1) (ilpy.set_relation ilpy.LessEqual
          (ilpy.set_coefficient ca (-1)
             (set_edges cols (ilpy.set_coefficient cx k ilpy.new))));
        ilpy.set_value 0 (ilpy.set_relation ilpy.GreaterEqual
          (ilpy.set_coefficient ca (- k)
             (set_edges cols (ilpy.set_coefficient cx k ilpy.new))))].
Proof.
  intros Hprev Hx Ha Hcols k. unfold NodeAppear.loop_body.
  destruct (decide _) as [Hk|_].
  { exfalso. apply Hprev, length_zero_iff_nil. lia. }
  simpl get_variables.
  rewrite (subscript_Some _ _ _ _ Hx), (subscript_Some _ _ _ _ Ha).
  rewrite !bind_Ok.
  rewrite (for_fold_prev_edges _ _ _ _ _ Hcols).
  reflexivity.
Qed.

(** What well-formedness provides at a node of the graph: the columns of
    its indicators, pairwise distinct. *)
Lemma well_formed_node solver node :
  well_formed solver = true →
  node ∈ (nodes (graph solver)).*1 →
  ∃ cx ca cols,
    getitem (node_selected solver) node = Some cx
    ∧ getitem (node_appear solver) node = Some ca
    ∧ Forall2 (λ e col, getitem (edge_selected solver) e = Some col)
        (prev_edges (graph solver) node) cols
    ∧ NoDup (cx :: ca :: cols).
Proof.
  unfold well_formed. intros [Hcols Hnodes]%andb_true_iff Hnode.
  apply bool_decide_eq_true in Hcols.
  rewrite forallb_forall in Hnodes.
  specialize (Hnodes node ltac:(by apply list_elem_of_In)).
  apply andb_true_iff in Hnodes as [Hnodes Hedges].
  apply andb_true_iff in Hnodes as [Hnodes Ha].
  apply andb_true_iff in Hnodes as [Hprev Hx].
  apply bool_decide_eq_true in Hprev.
  apply is_not_None_Some in Hx as [cx Hx], Ha as [ca Ha].
  unfold columns in Hcols.
  apply NoDup_app in Hcols as (Hns & Hdisj1 & Hcols).
  apply NoDup_app in Hcols as (Hes & Hdisj2 & Hna).
  assert (∃ cols,
    Forall2 (λ e col, getitem (edge_selected solver) e = Some col)
      (prev_edges (graph solver) node) cols) as [cols Hcols].
  { clear Hprev. induction (prev_edges (graph solver) node) as [|e es IH].
    - exists []. constructor.
    - simpl in Hedges. apply andb_true_iff in Hedges as [He Hedges].
      apply is_not_None_Some in He as [col He].
      destruct (IH Hedges) as [cols Hcols].
      exists (col :: cols). by constructor. }
  exists cx, ca, cols. split_and!; try done.
  assert (Forall (λ col, col ∈ (edge_selected solver).*2) cols) as Hin.
  { clear Hprev Hedges.
    induction Hcols as [|e col es cols He _ IH]; constructor; [|done].
    by apply getitem_value in He. }
  rewrite Forall_forall in Hin.
  apply getitem_value in Hx as Hx', Ha as Ha'.
  apply NoDup_cons. split.
  { intros [->|Hc]%elem_of_cons.
    - eapply Hdisj1; [done|]. apply elem_of_app. by right.
    - eapply Hdisj1; [done|]. apply elem_of_app. left. by apply Hin. }
  apply NoDup_cons. split.
  { intros Hc. eapply Hdisj2; [by apply Hin | done]. }
  clear Hin Hedges. revert Hprev.
  induction Hcols as [|e col es cols He Hcols IH]; intros Hprev.
  - constructor.
  - apply NoDup_cons in Hprev as [Hnin Hprev]. apply NoDup_cons.
    split; [|by apply IH].
    intros Hcol. apply Hnin. clear IH Hprev Hnin.
    induction Hcols as [|e' col' es cols He' Hcols IH].
    + by apply elem_of_nil in Hcol.
    + apply elem_of_cons in Hcol as [->|Hcol].
      * rewrite (getitem_inj _ _ _ _ Hes He He'). apply list_elem_of_here.
      * apply list_elem_of_further. by apply IH.
Qed.

Lemma well_formed_loop_body solver node :
  well_formed solver = true →
  node ∈ (nodes (graph solver)).*1 →
  ∃ cs, NodeAppear.loop_body solver node = Ok cs.
Proof.
  intros Hwf Hnode.
  destruct (well_formed_node _ _ Hwf Hnode) as (cx & ca & cols & Hx & Ha & Hcols & _).
  destruct (prev_edges (graph solver) node) as [|e es] eqn:Hprev.
  - eexists. by apply loop_body_no_prev_edges.
  - eexists. apply loop_body_prev_edges; [by rewrite Hprev | done | done |].
    by rewrite Hprev.
Qed.

(** On a well-formed solver the generator runs to exhaustion, and what it
    yields for a node stands between what it yields for the nodes before
    and after it. *)
Lemma instantiate_constraints_at solver node cs :
  well_formed solver = true →
  node ∈ (nodes (graph solver)).*1 →
  NodeAppear.loop_body solver node = Ok cs →
  ∃ before after,
    NodeAppear.instantiate_constraints solver = (before ++ cs ++ after, None).
Proof.
  intros Hwf Hnode Hcs. unfold NodeAppear.instantiate_constraints.
  rewrite for_yield_exhausted.
  - apply list_elem_of_split in Hnode as (pre & post & ->).
    rewrite bind_app, bind_cons, Hcs. eauto.
  - apply Forall_forall. intros v Hv. by apply well_formed_loop_body.
Qed.
End NodeAppearFacts.

Section ConstraintShape.
Implicit Types (cx ca : Column) (cols : list Column) (sol : Column → Z).

Lemma lookup_edge_coefficients cols (j : Column) :
  (list_to_map ((λ col, (col, -1)) <$> cols) : gmap nat Z) !! j
  = if decide (j ∈ cols) then Some (-1) else None.
Proof.
  induction cols as [|col cols IH].
  - destruct (decide (j ∈ [])) as [[]%elem_of_nil|]; done.
  - rewrite fmap_cons, list_to_map_cons.
    destruct (decide (col = j)) as [->|Hne].
    + rewrite lookup_insert_eq.
      by rewrite decide_True by apply list_elem_of_here.
    + rewrite lookup_insert_ne, IH by done.
      destruct (decide (j ∈ cols)) as [Hin|Hnin],
        (decide (j ∈ col :: cols)) as [Hin'|Hnin']; try done.
      * contradict Hnin'. by apply list_elem_of_further.
      * apply elem_of_cons in Hin' as [->|?]; done.
Qed.

(** The coefficient mapping of either general-case constraint, read off as
    a table: [k] on the node column, [coef] on the appear column, [-1] on
    each edge column. *)
Lemma coefficients_general cx ca cols (k coef : Z) :
  NoDup (cx :: ca :: cols) →
  ilpy.coefficients
    (ilpy.set_coefficient ca coef
       (set_edges cols (ilpy.set_coefficient cx k ilpy.new)))
  = list_to_map ((cx, k) :: (ca, coef) :: ((λ col, (col, -1)) <$> cols)).
Proof.
  intros [Hx [Ha _]%NoDup_cons]%NoDup_cons.
  apply not_elem_of_cons in Hx as [Hxa Hx].
  apply map_eq. intros j. rewrite !list_to_map_cons.
  change (ilpy.coefficients (ilpy.set_coefficient ca coef ?c))
    with (<[ca := coef]> (ilpy.coefficients c)).
  destruct (decide (ca = j)) as [->|Haj].
  { rewrite lookup_insert_eq, lookup_insert_ne, lookup_insert_eq; done. }
  rewrite lookup_insert_ne, coefficients_set_edges by done. simpl.
  destruct (decide (cx = j)) as [->|Hxj].
  { rewrite decide_False, !lookup_insert_eq; done. }
  rewrite !lookup_insert_ne, lookup_edge_coefficients by done.
  destruct (decide (j ∈ cols)); [done | apply lookup_empty].
Qed.

Lemma lhs_general cx ca cols (k coef : Z) sol :
  NoDup (cx :: ca :: cols) →
  ilpy.lhs
    (ilpy.set_coefficient ca coef
       (set_edges cols (ilpy.set_coefficient cx k ilpy.new))) sol
  = k * sol cx - sum_list (sol <$> cols) + coef * sol ca.
Proof.
  intros [Hx [Ha Hcols]%NoDup_cons]%NoDup_cons.
  apply not_elem_of_cons in Hx as [Hxa Hx].
  rewrite lhs_set_coefficient.
  - rewrite lhs_set_edges; [|done|].
    + rewrite lhs_set_coefficient, lhs_new; [lia | apply lookup_empty].
    + intros j Hj. simpl. rewrite lookup_insert_ne; [apply lookup_empty|].
      by intros ->.
  - rewrite coefficients_set_edges, decide_False by done. simpl.
    rewrite lookup_insert_ne by done. apply lookup_empty.
Qed.

Lemma sum_list_zero_Forall (zs : list Z) :
  Forall binary zs → (sum_list zs = 0 ↔ Forall (λ e, e = 0) zs).
Proof.
  intros Hzs. rewrite (sum_list_zero _ Hzs), forallb_forall, Forall_forall.
  split; intros Hall z Hz.
  - apply Z.eqb_eq, Hall. by apply list_elem_of_In.
  - apply Z.eqb_eq, Hall. by apply list_elem_of_In.
Qed.

(** Values read through [set_appear] at columns other than the appear
    column are those of the assignment. *)
Lemma fmap_fn_insert_fresh sol ca (a : Z) cols :
  ca ∉ cols → <[ca := a]> sol <$> cols = sol <$> cols.
Proof.
  intros Hca. apply list_fmap_ext. intros i col Hcol.
  apply fn_lookup_insert_ne. intros ->.
  apply Hca. by eapply list_elem_of_lookup_2.
Qed.
End ConstraintShape.

Section Indicators.
Context {F : Type}.
Implicit Types (solver : Solver F) (node : NodeId) (sol : Column → Z).

Lemma selected_column solver sol node cx :
  getitem (node_selected solver) node = Some cx →
  selected solver sol node = sol cx.
Proof. unfold selected, indicator. by intros ->. Qed.

Lemma incoming_columns solver sol node cols :
  Forall2 (λ e col, getitem (edge_selected solver) e = Some col)
    (prev_edges (graph solver) node) cols →
  incoming solver sol node = sol <$> cols.
Proof.
  unfold incoming. induction 1 as [|e col es cols He _ IH]; [done|].
  rewrite !fmap_cons, IH. unfold indicator. by rewrite He.
Qed.

Lemma set_appear_column solver sol node ca (a : Z) :
  getitem (node_appear solver) node = Some ca →
  set_appear solver node a sol = <[ca := a]> sol.
Proof. unfold set_appear. by intros ->. Qed.
End Indicators.

(** * [NodeAppear]: the constraints and what they force *)
Section NodeAppearSpec.
Context {F : Type}.
Implicit Types (solver : Solver F) (node : NodeId) (sol : Column → Z).

(** On a well-formed solver, what the loop body yields for a node with
    incoming edges, with the columns involved. *)
Lemma loop_body_general solver node :
  well_formed solver = true →
  node ∈ (nodes (graph solver)).*1 →
  prev_edges (graph solver) node ≠ [] →
  let k := Z.of_nat (length (prev_edges (graph solver) node)) in
  ∃ cx ca cols,
    getitem (node_selected solver) node = Some cx
    ∧ getitem (node_appear solver) node = Some ca
    ∧ Forall2 (λ e col, getitem (edge_selected solver) e = Some col)
        (prev_edges (graph solver) node) cols
    ∧ NoDup (cx :: ca :: cols)
    ∧ NodeAppear.loop_body solver node
      = Ok [ilpy.set_value (k - 1) (ilpy.set_relation ilpy.LessEqual
              (ilpy.set_coefficient ca (-1)
                 (set_edges cols (ilpy.set_coefficient cx k ilpy.new))));
            ilpy.set_value 0 (ilpy.set_relation ilpy.GreaterEqual
              (ilpy.set_coefficient ca (- k)
                 (set_edges cols (ilpy.set_coefficient cx k ilpy.new))))].
Proof.
  intros Hwf Hnode Hprev k.
  destruct (well_formed_node _ _ Hwf Hnode)
    as (cx & ca & cols & Hx & Ha & Hcols & Hnd).
  exists cx, ca, cols. split_and!; try done.
  by apply loop_body_prev_edges.
Qed.

(** C3.  For a node [v] of a well-formed solver with [k ≥ 1] incoming
    edges, the generator yields exactly two constraints for [v]:
    constraint (1) has coefficient [k] on [x_v], [-1] on each incoming-edge
    indicator and [-1] on [a_v], relation [≤] and right-hand side [k - 1];
    constraint (2) has coefficient [k] on [x_v], [-1] on each incoming-edge
    indicator and [-k] on [a_v], relation [≥] and right-hand side [0].
    With [s = k·x_v − Σ e_i] they read [s − a_v ≤ k − 1] and
    [s − k·a_v ≥ 0]; no coefficient other than the fan-in [k] and [±1]
    occurs. *)
Theorem general_case_constraints solver node (k : Z) :
  well_formed solver = true →
  node ∈ (nodes (graph solver)).*1 →
  k = Z.of_nat (length (prev_edges (graph solver) node)) →
  (1 <= k)%Z →
  ∃ cx ca cols c1 c2,
    getitem (node_selected solver) node = Some cx
    ∧ getitem (node_appear solver) node = Some ca
    ∧ Forall2 (λ e col, getitem (edge_selected solver) e = Some col)
        (prev_edges (graph solver) node) cols
    ∧ NoDup (cx :: ca :: cols)
    ∧ NodeAppear.loop_body solver node = Ok [c1; c2]
    ∧ (∃ before after,
         NodeAppear.instantiate_constraints solver
         = (before ++ [c1; c2] ++ after, None))
    ∧ ilpy.coefficients c1
      = list_to_map ((cx, k) :: (ca, -1) :: ((λ col, (col, -1)) <$> cols))
    ∧ ilpy.relation c1 = ilpy.LessEqual
    ∧ ilpy.value c1 = k - 1
    ∧ ilpy.coefficients c2
      = list_to_map ((cx, k) :: (ca, - k) :: ((λ col, (col, -1)) <$> cols))
    ∧ ilpy.relation c2 = ilpy.GreaterEqual
    ∧ ilpy.value c2 = 0
    ∧ ∀ sol,
        let s := k * sol cx - sum_list (sol <$> cols) in
        (ilpy.satisfied c1 sol = true ↔ (s - sol ca <= k - 1)%Z)
        ∧ (ilpy.satisfied c2 sol = true ↔ (s - k * sol ca >= 0)%Z).
Proof.
  intros Hwf Hnode -> Hk.
  assert (prev_edges (graph solver) node ≠ []) as Hprev.
  { intros Hnil. rewrite Hnil in Hk. simpl in Hk. lia. }
  destruct (loop_body_general _ _ Hwf Hnode Hprev)
    as (cx & ca & cols & Hx & Ha & Hcols & Hnd & Hbody).
  eexists cx, ca, cols, _, _. split_and!; try done.
  - by eapply instantiate_constraints_at.
  - by apply coefficients_general.
  - by apply coefficients_general.
  - intros sol s. unfold ilpy.satisfied. simpl.
    rewrite !lhs_set_value, !lhs_set_relation, !lhs_general by done.
    subst s. rewrite Z.leb_le, Z.geb_le. lia.
Qed.

(** What the two constraints of a node with incoming edges ask of a binary
    value [a] of its appear indicator, under a binary assignment of the
    node and edge indicators. *)
Lemma fan_in_feasible_iff solver node sol (a : Z) :
  well_formed solver = true →
  node ∈ (nodes (graph solver)).*1 →
  prev_edges (graph solver) node ≠ [] →
  binary (selected solver sol node) →
  Forall binary (incoming solver sol node) →
  binary a →
  ∃ c1 c2,
    NodeAppear.loop_body solver node = Ok [c1; c2]
    ∧ (∃ before after,
         NodeAppear.instantiate_constraints solver
         = (before ++ [c1; c2] ++ after, None))
    ∧ (feasible [c1; c2] (set_appear solver node a sol) = true
       ↔ (selected solver sol node = 1
          ∨ Forall (λ e, e = 0) (incoming solver sol node))
         ∧ (a = 1
            ↔ selected solver sol node = 1
              ∧ Forall (λ e, e = 0) (incoming solver sol node))).
Proof.
  intros Hwf Hnode Hprev Hx Hes Ha.
  destruct (loop_body_general _ _ Hwf Hnode Hprev)
    as (cx & ca & cols & Hcx & Hca & Hcols & Hnd & Hbody).
  eexists _, _. split; [exact Hbody|].
  split; [by eapply instantiate_constraints_at|].
  rewrite (selected_column _ _ _ _ Hcx) in *.
  rewrite (incoming_columns _ _ _ _ Hcols) in *.
  rewrite (set_appear_column _ _ _ _ _ Hca).
  rewrite <- (sum_list_zero_Forall _ Hes).
  pose proof (sum_list_binary _ Hes) as Hsum.
  rewrite length_fmap, <- (Forall2_length _ _ _ Hcols) in Hsum.
  assert (prev_edges (graph solver) node ≠ [] →
          0 < Z.of_nat (length (prev_edges (graph solver) node))) as Hk.
  { destruct (prev_edges (graph solver) node); [done | simpl; lia]. }
  specialize (Hk Hprev).
  apply NoDup_cons in Hnd as Hnd'. destruct Hnd' as [Hxa [Hac _]%NoDup_cons].
  apply not_elem_of_cons in Hxa as [Hxa Hxc].
  unfold feasible, ilpy.satisfied. simpl.
  rewrite !lhs_set_value, !lhs_set_relation, !lhs_general by done.
  rewrite fmap_fn_insert_fresh by done.
  rewrite fn_lookup_insert, fn_lookup_insert_ne by done.
  rewrite andb_true_r, andb_true_iff, Z.leb_le, Z.geb_le.
  set (k := Z.of_nat (length (prev_edges (graph solver) node))) in *.
  set (total := sum_list (sol <$> cols)) in *.
  destruct Hx as [-> | ->], Ha as [-> | ->]; lia.
Qed.

(** C1, as the code has it.  Take a node [v] of a well-formed solver with
    [k ≥ 1] incoming edges and a binary assignment of [x_v] and
    [e_1 .. e_k].  If an incoming edge is selected only if [v] is
    ([x_v = 1] or all [e_i = 0]), the two constraints yielded for [v] admit
    a unique feasible binary value of [a_v], and that value is 1 iff
    [x_v = 1] and all [e_i = 0].  Otherwise ([x_v = 0] with some
    [e_i = 1]) no binary value of [a_v] satisfies both constraints. *)
Theorem fan_in_unique_feasible solver node sol :
  well_formed solver = true →
  node ∈ (nodes (graph solver)).*1 →
  prev_edges (graph solver) node ≠ [] →
  binary (selected solver sol node) →
  Forall binary (incoming solver sol node) →
  ∃ c1 c2,
    NodeAppear.loop_body solver node = Ok [c1; c2]
    ∧ (∃ before after,
         NodeAppear.instantiate_constraints solver
         = (before ++ [c1; c2] ++ after, None))
    ∧ (selected solver sol node = 1
       ∨ Forall (λ e, e = 0) (incoming solver sol node) →
       ∃ a,
         binary a
         ∧ feasible [c1; c2] (set_appear solver node a sol) = true
         ∧ (∀ a', binary a' →
              feasible [c1; c2] (set_appear solver node a' sol) = true →
              a' = a)
         ∧ (a = 1
            ↔ selected solver sol node = 1
              ∧ Forall (λ e, e = 0) (incoming solver sol node)))
    ∧ (¬ (selected solver sol node = 1
          ∨ Forall (λ e, e = 0) (incoming solver sol node)) →
       ∀ a, binary a →
         feasible [c1; c2] (set_appear solver node a sol) = false).
Proof.
  intros Hwf Hnode Hprev Hx Hes.
  destruct (fan_in_feasible_iff solver node sol 0 Hwf Hnode Hprev Hx Hes)
    as (c1 & c2 & Hbody & Hyield & H0); [by left|].
  exists c1, c2. split; [done|]. split; [done|].
  assert (∀ a, binary a →
    (feasible [c1; c2] (set_appear solver node a sol) = true
     ↔ (selected solver sol node = 1
        ∨ Forall (λ e, e = 0) (incoming solver sol node))
       ∧ (a = 1
          ↔ selected solver sol node = 1
            ∧ Forall (λ e, e = 0) (incoming solver sol node)))) as Hiff.
  { intros a Ha.
    destruct (fan_in_feasible_iff solver node sol a Hwf Hnode Hprev Hx Hes Ha)
      as (c1' & c2' & Hbody' & _ & Ha').
    rewrite Hbody in Hbody'. by simplify_eq. }
  clear H0. split.
  - intros Himplied.
    destruct (decide (selected solver sol node = 1
                      ∧ Forall (λ e, e = 0) (incoming solver sol node)))
      as [Hstart|Hnot].
    + exists 1. split_and!; [by right | by apply Hiff; [right|] | | done].
      intros a' Ha' Hfeasible. apply Hiff in Hfeasible as [_ Hfeasible]; [|done].
      by apply Hfeasible.
    + exists 0. split_and!; [by left | | | done].
      * apply Hiff; [by left|]. split; [done|]. split; [done|]. intros; done.
      * intros a' [-> | ->] Hfeasible; [done|].
        apply Hiff in Hfeasible as [_ Hfeasible]; [|by right].
        destruct Hnot. by apply Hfeasible.
  - intros Hnot a Ha. apply not_true_is_false. intros Hfeasible.
    apply Hiff in Hfeasible as [Himplied _]; done.
Qed.

(** C2.  For a node [v] of a well-formed solver without incoming edges,
    the generator yields exactly one constraint for [v]: coefficient [1]
    on [x_v], [-1] on [a_v], relation [=] and right-hand side [0]; an
    assignment satisfies it exactly when [a_v = x_v]. *)
Theorem zero_fan_in_constraint solver node :
  well_formed solver = true →
  node ∈ (nodes (graph solver)).*1 →
  prev_edges (graph solver) node = [] →
  ∃ cx ca c,
    getitem (node_selected solver) node = Some cx
    ∧ getitem (node_appear solver) node = Some ca
    ∧ cx ≠ ca
    ∧ NodeAppear.loop_body solver node = Ok [c]
    ∧ (∃ before after,
         NodeAppear.instantiate_constraints solver
         = (before ++ [c] ++ after, None))
    ∧ ilpy.coefficients c = {[ cx := 1; ca := -1 ]}
    ∧ ilpy.relation c = ilpy.Equal
    ∧ ilpy.value c = 0
    ∧ ∀ sol (a : Z),
        feasible [c] (set_appear solver node a sol) = true
        ↔ a = selected solver sol node.
Proof.
  intros Hwf Hnode Hprev.
  destruct (well_formed_node _ _ Hwf Hnode)
    as (cx & ca & cols & Hcx & Hca & _ & Hnd).
  apply NoDup_cons in Hnd as [[Hxa _]%not_elem_of_cons _].
  pose proof (loop_body_no_prev_edges _ _ _ _ Hprev Hcx Hca) as Hbody.
  eexists cx, ca, _. split_and!; try done.
  - by eapply instantiate_constraints_at.
  - simpl. by apply insert_insert_ne.
  - intros sol a.
    rewrite (selected_column _ _ _ _ Hcx), (set_appear_column _ _ _ _ _ Hca).
    unfold feasible, ilpy.satisfied. simpl.
    rewrite lhs_set_value, lhs_set_relation.
    rewrite lhs_set_coefficient.
    + rewrite lhs_set_coefficient, lhs_new by apply lookup_empty.
      rewrite fn_lookup_insert, fn_lookup_insert_ne by done.
      rewrite andb_true_r, Z.eqb_eq. lia.
    + simpl. rewrite lookup_insert_ne by done. apply lookup_empty.
Qed.

(** Every constraint a round of the loop yields has a nonzero coefficient:
    the one it sets last, on the appear indicator. *)
Lemma loop_body_coefficient solver node cs c :
  NodeAppear.loop_body solver node = Ok cs →
  c ∈ cs →
  ∃ col coef, ilpy.coefficients c !! col = Some coef ∧ coef ≠ 0.
Proof.
  unfold NodeAppear.loop_body.
  destruct (decide _) as [Hk|Hk];
    destruct (subscript NodeKey (get_variables solver NodeSelected) node)
      as [cx|]; simpl; try done.
  - destruct (subscript NodeKey (node_appear solver) node)
      as [ca|]; simpl; [|done].
    intros [= <-] ->%list_elem_of_singleton.
    exists ca, (-1). simpl. by rewrite lookup_insert_eq.
  - destruct (for_fold _ _ _) as [[c1 c2]|]; simpl; [|done].
    destruct (subscript NodeKey (node_appear solver) node)
      as [ca|]; simpl; [|done].
    intros [= <-] [->|[->|[]%elem_of_nil]%elem_of_cons]%elem_of_cons.
    + exists ca, (-1). simpl. by rewrite lookup_insert_eq.
    + eexists ca, _. simpl. rewrite lookup_insert_eq. split; [done | lia].
Qed.

(** C9.  Every constraint that [instantiate_constraints] yields, on any
    solver and graph, has at least one nonzero entry in its coefficient
    mapping; in particular none has an empty mapping. *)
Theorem yielded_constraints_nonempty solver c :
  c ∈ (NodeAppear.instantiate_constraints solver).1 →
  ∃ col coef, ilpy.coefficients c !! col = Some coef ∧ coef ≠ 0.
Proof.
  intros (node & cs & _ & Hbody & Hc)%for_yield_elem_of.
  by eapply loop_body_coefficient.
Qed.

(** C8.  [instantiate] returns exactly the nodes of the graph, so that the
    registry, handing one column to each returned element, gives every
    node an appear indicator; and it returns the same collection on any
    two solvers that hold the same graph, whatever their variables,
    parameters, objective and constraints. *)
Theorem instantiate_nodes solver solver' (next : Column) :
  graph solver = graph solver' →
  NodeAppear.instantiate solver = NodeAppear.instantiate solver'
  ∧ (∀ node,
       node ∈ NodeAppear.instantiate solver
       ↔ is_Some (getitem (nodes (graph solver)) node))
  ∧ (∀ node,
       is_Some (getitem (nodes (graph solver)) node) →
       is_Some (getitem (allocate (NodeAppear.instantiate solver) next) node)).
Proof.
  intros Hgraph. unfold NodeAppear.instantiate. split; [by rewrite Hgraph|].
  assert (∀ node,
    node ∈ (nodes (graph solver)).*1
    ↔ is_Some (getitem (nodes (graph solver)) node)) as Hkeys.
  { intros node. split; [apply getitem_is_Some|].
    intros [attrs Hattrs%getitem_elem_of].
    apply list_elem_of_fmap. by exists (node, attrs). }
  split; [done|].
  intros node Hnode%Hkeys. apply getitem_is_Some.
  unfold allocate. rewrite fst_zip; [done|]. by rewrite length_seq.
Qed.
End NodeAppearSpec.

(** * [NodeSelection]: what [apply] adds to the objective *)
Section ActionFacts.
Context {S : Type}.

Lemma run_bind {A B : Type} (m : Action S A) (f : A → Action S B) (s : S) :
  run (m ≫= f) s
  = match run m s with
    | (s', Ok a) => run (f a) s'
    | (s', Raise e) => (s', Raise e)
    end.
Proof. reflexivity. Qed.

Lemma run_for_each_cons {A : Type} (x : A) (xs : list A)
    (body : A → Action S unit) (s : S) :
  run (for_each (x :: xs) body) s
  = match run (body x) s with
    | (s', Ok _) => run (for_each xs body) s'
    | (s', Raise e) => (s', Raise e)
    end.
Proof. reflexivity. Qed.

End ActionFacts.

Section NodeSelectionFacts.
Context {F : Type} `{Scalar F}.
Implicit Types (solver : Solver F) (self : NodeSelection.t F)
  (items : list (NodeId * Column)).

Lemma same_model_refl solver : same_model solver solver.
Proof. by repeat split. Qed.

Lemma same_model_trans solver1 solver2 solver3 :
  same_model solver1 solver2 → same_model solver2 solver3 →
  same_model solver1 solver3.
Proof.
  intros (? & ? & ? & ? & ? & ?) (? & ? & ? & ? & ? & ?).
  repeat split; congruence.
Qed.

(** The attribute read depends on the solver through its graph only. *)
Lemma node_attribute_same_model solver solver' node name :
  same_model solver solver' →
  NodeSelection.node_attribute solver' node name
  = NodeSelection.node_attribute solver node name.
Proof. intros [Hg _]. unfold NodeSelection.node_attribute. by rewrite Hg. Qed.

(** Whatever the attribute read raises is a [KeyError]. *)
Lemma node_attribute_raises solver node name e :
  NodeSelection.node_attribute solver node name = Raise e →
  ∃ key, e = KeyError key.
Proof.
  unfold NodeSelection.node_attribute, subscript.
  destruct (getitem _ _) as [attrs|]; simpl.
  - destruct (attrs !! name); [done|]. intros [= <-]. eauto.
  - intros [= <-]. eauto.
Qed.

Lemma node_attribute_missing solver node name attrs :
  getitem (nodes (graph solver)) node = Some attrs →
  attrs !! name = None →
  NodeSelection.node_attribute solver node name
  = Raise (KeyError (AttrKey name)).
Proof.
  intros Hnode Hname. unfold NodeSelection.node_attribute, subscript.
  rewrite Hnode. simpl. by rewrite Hname.
Qed.

(** A round on a node whose attribute is there: both contributions land on
    the node's column and nothing else changes. *)
Lemma run_loop_body_Ok self solver node index v w c :
  NodeSelection.node_attribute solver node (NodeSelection.attribute self)
  = Ok v →
  resolve (parameters solver) (NodeSelection.weight self) = Ok w →
  resolve (parameters solver) (NodeSelection.constant self) = Ok c →
  ∃ solver',
    run (NodeSelection.loop_body self (node, index)) solver = (solver', Ok tt)
    ∧ same_model solver solver'
    ∧ objective solver' index
      = add (add (objective solver index) (mul w v)) (mul c one)
    ∧ ∀ col, col ≠ index → objective solver' col = objective solver col.
Proof.
  intros Hv Hw Hc. eexists. split.
  { unfold NodeSelection.loop_body, add_variable_cost.
    rewrite !run_bind. simpl. rewrite Hv. simpl. rewrite Hw. simpl.
    rewrite Hc. simpl. reflexivity. }
  split; [by repeat split|]. simpl. split.
  - by rewrite !fn_lookup_insert.
  - intros col Hcol. by rewrite !fn_lookup_insert_ne.
Qed.

(** A round on a node whose attribute read raises: nothing is written. *)
Lemma run_loop_body_Raise self solver node index e :
  NodeSelection.node_attribute solver node (NodeSelection.attribute self)
  = Raise e →
  run (NodeSelection.loop_body self (node, index)) solver = (solver, Raise e).
Proof.
  intros He. unfold NodeSelection.loop_body.
  rewrite !run_bind. simpl. by rewrite He.
Qed.

(** The loop over items whose attributes are all there. *)
Lemma run_for_each_Ok self w c items : ∀ solver,
  resolve (parameters solver) (NodeSelection.weight self) = Ok w →
  resolve (parameters solver) (NodeSelection.constant self) = Ok c →
  NoDup items.*2 →
  (∀ node index, (node, index) ∈ items →
     ∃ v, NodeSelection.node_attribute solver node
            (NodeSelection.attribute self) = Ok v) →
  ∃ solver',
    run (for_each items (NodeSelection.loop_body self)) solver
    = (solver', Ok tt)
    ∧ same_model solver solver'
    ∧ (∀ node index, (node, index) ∈ items →
         ∃ v, NodeSelection.node_attribute solver node
                (NodeSelection.attribute self) = Ok v
              ∧ objective solver' index
                = add (add (objective solver index) (mul w v)) (mul c one))
    ∧ (∀ col, col ∉ items.*2 → objective solver' col = objective solver col).
Proof.
  induction items as [|[node index] items IH]; intros solver Hw Hc Hnd Hattrs.
  { exists solver. split_and!; [done | apply same_model_refl | | done].
    by intros ?? ?%elem_of_nil. }
  rewrite fmap_cons in Hnd. apply NoDup_cons in Hnd as [Hindex Hnd].
  destruct (Hattrs node index) as [v Hv]; [apply list_elem_of_here|].
  destruct (run_loop_body_Ok self solver node index v w c Hv Hw Hc)
    as (solver1 & Hrun1 & Hsame1 & Hobj1 & Hrest1).
  destruct (IH solver1) as (solver' & Hrun & Hsame & Hobj & Hrest).
  { destruct Hsame1 as (_ & _ & _ & _ & -> & _). done. }
  { destruct Hsame1 as (_ & _ & _ & _ & -> & _). done. }
  { done. }
  { intros node' index' Hin. rewrite (node_attribute_same_model _ _ _ _ Hsame1).
    apply (Hattrs node' index'). by apply list_elem_of_further. }
  exists solver'. split_and!.
  - rewrite run_for_each_cons, Hrun1. exact Hrun.
  - by eapply same_model_trans.
  - intros node' index' [[= -> ->]|Hin]%elem_of_cons.
    + exists v. split; [done|]. by rewrite Hrest, Hobj1.
    + destruct (Hobj node' index' Hin) as (v' & Hv' & Hobj').
      rewrite (node_attribute_same_model _ _ _ _ Hsame1) in Hv'.
      exists v'. split; [done|]. rewrite Hobj', Hrest1; [done|].
      intros ->. apply Hindex, list_elem_of_fmap. by exists (node', index).
  - intros col [Hne Hcol]%not_elem_of_cons.
    by rewrite Hrest, Hrest1.
Qed.
End NodeSelectionFacts.

Section NodeSelectionSpec.
Context {F : Type} `{Scalar F}.
Implicit Types (solver : Solver F) (self : NodeSelection.t F).

Lemma run_apply self solver :
  run (NodeSelection.apply self) solver
  = run (for_each (node_selected solver) (NodeSelection.loop_body self))
      solver.
Proof. reflexivity. Qed.

(** The attribute read on a node of the graph that carries the attribute
    returns the value stored there. *)
Lemma node_attribute_present solver node name attrs (v : F) :
  getitem (nodes (graph solver)) node = Some attrs →
  attrs !! name = Some v →
  NodeSelection.node_attribute solver node name = Ok v.
Proof.
  intros Hnode Hname. unfold NodeSelection.node_attribute, subscript.
  rewrite Hnode. simpl. by rewrite Hname.
Qed.

(** C4.  When every node with a registered NodeSelected indicator is in the
    graph and carries the configured attribute, [apply] succeeds; on the
    column of each such node the objective gains exactly two contributions,
    [weight.resolve() × v], where [v] is the value the graph stores for the
    attribute on that node, and then [constant.resolve() × 1.0]; no other
    column changes; and the constraints, like everything but the objective,
    are left as they were. *)
Theorem apply_contributions self solver (w c : F) :
  NoDup (node_selected solver).*2 →
  resolve (parameters solver) (NodeSelection.weight self) = Ok w →
  resolve (parameters solver) (NodeSelection.constant self) = Ok c →
  (∀ node index, (node, index) ∈ node_selected solver →
     ∃ attrs v,
       getitem (nodes (graph solver)) node = Some attrs
       ∧ attrs !! NodeSelection.attribute self = Some v) →
  ∃ solver',
    run (NodeSelection.apply self) solver = (solver', Ok tt)
    ∧ constraints solver' = constraints solver
    ∧ same_model solver solver'
    ∧ (∀ node index attrs v,
         (node, index) ∈ node_selected solver →
         getitem (nodes (graph solver)) node = Some attrs →
         attrs !! NodeSelection.attribute self = Some v →
         objective solver' index
         = add (add (objective solver index) (mul w v)) (mul c one))
    ∧ (∀ col, col ∉ (node_selected solver).*2 →
         objective solver' col = objective solver col).
Proof.
  intros Hnd Hw Hc Hattrs. rewrite run_apply.
  destruct (run_for_each_Ok self w c _ solver Hw Hc Hnd)
    as (solver' & Hrun & Hsame & Hobj & Hrest).
  { intros node index Hin.
    destruct (Hattrs node index Hin) as (attrs & v & Hnode & Hv).
    exists v. by eapply node_attribute_present. }
  exists solver'. split_and!; try done.
  - by destruct Hsame as (_ & _ & _ & _ & _ & ?).
  - intros node index attrs v Hin Hnode Hv.
    destruct (Hobj node index Hin) as (v' & Hv' & ->).
    rewrite (node_attribute_present _ _ _ _ _ Hnode Hv) in Hv'.
    by injection Hv' as <-.
Qed.


(** The loop raises a [KeyError] as soon as some item's node lacks the
    attribute, when the weights are literals. *)
Lemma run_for_each_missing (w c : F) name items node index attrs :
  ∀ solver,
  (node, index) ∈ items →
  getitem (nodes (graph solver)) node = Some attrs →
  attrs !! name = None →
  ∃ solver' key,
    run (for_each items
           (NodeSelection.loop_body
              {| NodeSelection.weight := Literal w;
                 NodeSelection.constant := Literal c;
                 NodeSelection.attribute := name |})) solver
    = (solver', Raise (KeyError key)).
Proof.
  induction items as [|[node0 index0] items IH]; intros solver Hin Hnode Hname.
  { by apply elem_of_nil in Hin. }
  rewrite run_for_each_cons.
  destruct (NodeSelection.node_attribute solver node0 name) as [v|e] eqn:Hv.
  - edestruct (run_loop_body_Ok
      {| NodeSelection.weight := Literal w;
         NodeSelection.constant := Literal c;
         NodeSelection.attribute := name |} solver node0 index0 v w c)
      as (solver1 & -> & Hsame & _); [done..|].
    apply elem_of_cons in Hin as [[= -> ->]|Hin].
    { rewrite (node_attribute_missing _ _ _ _ Hnode Hname) in Hv. done. }
    apply IH; [done | | done].
    destruct Hsame as (-> & _). done.
  - rewrite (run_loop_body_Raise _ _ _ _ e) by done.
    apply node_attribute_raises in Hv as [key ->]. eauto.
Qed.

(** C6.  If some node with a registered NodeSelected indicator lacks the
    configured attribute, [apply] of a [NodeSelection] built by its
    constructor fails, and the exception is an instance of [LookupError]:
    no default value stands in for the missing attribute. *)
Theorem apply_raises_LookupError (weight : F) (attribute : option string)
    (constant : option F) solver node index attrs :
  let self := NodeSelection.__init__ weight attribute constant in
  (node, index) ∈ node_selected solver →
  getitem (nodes (graph solver)) node = Some attrs →
  attrs !! NodeSelection.attribute self = None →
  ∃ solver' e,
    run (NodeSelection.apply self) solver = (solver', Raise e)
    ∧ isinstance e cLookupError = true.
Proof.
  intros self Hin Hnode Hname. rewrite run_apply.
  destruct (run_for_each_missing weight (default zero constant)
              (default "costs"%string attribute) _ _ _ _ solver Hin Hnode Hname)
    as (solver' & key & Hrun).
  exists solver', (KeyError key). split; [exact Hrun | reflexivity].
Qed.
End NodeSelectionSpec.

(** * [draw_track_graph]: options that exclude each other *)
Section PlotSpec.
Context {F : Type} `{Scalar F} {Figure Style : Type}.

(** C7, as the code has it.  When [draw_track_graph] is given both the
    attribute name and the callable for the position, for the alpha value
    or for the label, it raises a [RuntimeError], whatever the drawing
    back end would do.  Its message is
    ["Only one of X_attribute and X_func can be given"], where [X] is the
    first of position, alpha and label that is given twice.  A
    [RuntimeError] is not a [ConfigurationError]. *)
Theorem draw_track_graph_exclusive_options
    (draw :
       TrackGraph F →
       (NodeId → Result F) →
       (NodeId → Result F) → (EdgeId → Result F) →
       (NodeId → Result (F + string)) → (EdgeId → Result (F + string)) →
       Style → Result Figure)
    (graph : TrackGraph F)
    (position_attribute : option string)
    (position_func : option (NodeId → Result F))
    (alpha_attribute : option string)
    (alpha_func : option (plot.Callables F))
    (label_attribute : option string)
    (label_func : option (plot.Callables (F + string)))
    (style : Style) :
  is_not_None position_attribute && is_not_None position_func
  || is_not_None alpha_attribute && is_not_None alpha_func
  || is_not_None label_attribute && is_not_None label_func = true →
  let msg :=
    if is_not_None position_attribute && is_not_None position_func
    then "Only one of position_attribute and position_func can be given"
    else if is_not_None alpha_attribute && is_not_None alpha_func
    then "Only one of alpha_attribute and alpha_func can be given"
    else "Only one of label_attribute and label_func can be given" in
  plot.draw_track_graph draw graph position_attribute position_func
    alpha_attribute alpha_func label_attribute label_func style
  = Raise (RuntimeError msg)
  ∧ isinstance (RuntimeError msg) cRuntimeError = true
  ∧ isinstance (RuntimeError msg) cConfigurationError = false.
Proof.
  intros Hboth. unfold plot.draw_track_graph.
  destruct position_attribute, position_func; simpl in *;
    try (split_and!; reflexivity);
    destruct alpha_attribute, alpha_func as [[]|]; simpl in *;
    try (split_and!; reflexivity);
    destruct label_attribute, label_func; simpl in *;
    try (split_and!; reflexivity); done.
Qed.
End PlotSpec.

(** * The chain scenario *)

(** C1 as stated fails: in the chain, with node [B] unselected and its
    incoming edge [(A, B)] selected, all indicators binary, neither value of
    the appear indicator of [B] satisfies the two constraints of [B]. *)
Lemma fan_in_unselected_node_infeasible :
  well_formed Chain.solver = true
  ∧ prev_edges (graph Chain.solver) Chain.B = [(Chain.A, Chain.B)]
  ∧ binary (selected Chain.solver Chain.only_A_and_AB Chain.B)
  ∧ Forall binary (incoming Chain.solver Chain.only_A_and_AB Chain.B)
  ∧ ∃ c1 c2,
      NodeAppear.loop_body Chain.solver Chain.B = Ok [c1; c2]
      ∧ ∀ a, binary a →
          feasible [c1; c2]
            (set_appear Chain.solver Chain.B a Chain.only_A_and_AB) = false.
Proof.
  split_and!.
  - reflexivity.
  - reflexivity.
  - left. reflexivity.
  - constructor; [right; reflexivity | constructor].
  - eexists _, _. split; [reflexivity|].
    intros a [-> | ->]; reflexivity.
Qed.

(** C7 as stated fails: given both [position_attribute] and [position_func],
    [draw_track_graph] raises the [RuntimeError] of its first check, and
    that exception is not a [ConfigurationError]. *)
Lemma draw_track_graph_not_ConfigurationError :
  ∃ e,
    e = RuntimeError
          "Only one of position_attribute and position_func can be given"
    ∧ plot.draw_track_graph Chain.draw_nothing Chain.track_graph
        (Some "x"%string) (Some (λ _, Ok 0%float)) None None None None tt
      = Raise e
    ∧ isinstance e cConfigurationError = false.
Proof. eexists. split_and!; reflexivity. Qed.

(** C5 as stated fails: in the chain, under the assignment that selects only
    node [A] and edge [(A, B)], setting [a_A = 1] and [a_B = 0] violates the
    constraints that [instantiate_constraints] yields, whatever [a_C] is. *)
Lemma chain_only_A_and_AB_infeasible :
  ∃ cs,
    NodeAppear.instantiate_constraints Chain.solver = (cs, None)
    ∧ ∀ aC,
        feasible cs
          (set_appear Chain.solver Chain.C aC
             (set_appear Chain.solver Chain.B 0
                (set_appear Chain.solver Chain.A 1 Chain.only_A_and_AB)))
        = false.
Proof.
  eexists. split; [reflexivity|]. intros aC. reflexivity.
Qed.

(** C5, as the code has it.  On the chain [A → B → C] with cost attribute
    [1.0] on each node, weight [2.0] and constant [0.5], [apply] leaves the
    objective coefficient [2.5] on the selection column of each of [A], [B]
    and [C].  Under the assignment selecting only [A] and [(A, B)], the
    constraint of [A] forces [a_A = 1], and no value of [a_B] satisfies the
    constraints of [B]; with [B] selected as well, the constraints force
    [a_A = 1] and [a_B = 0]. *)
Theorem chain_scenario :
  (∃ solver',
     run (NodeSelection.apply Chain.costs) Chain.solver = (solver', Ok tt)
     ∧ Forall
         (λ node, ∃ index,
            getitem (node_selected Chain.solver) node = Some index
            ∧ objective solver' index = 2.5%float)
         [Chain.A; Chain.B; Chain.C])
  ∧ ∃ cA cB1 cB2 cC1 cC2,
      NodeAppear.instantiate_constraints Chain.solver
      = ([cA; cB1; cB2; cC1; cC2], None)
      ∧ NodeAppear.loop_body Chain.solver Chain.A = Ok [cA]
      ∧ NodeAppear.loop_body Chain.solver Chain.B = Ok [cB1; cB2]
      ∧ (∀ a, binary a →
           (feasible [cA]
              (set_appear Chain.solver Chain.A a Chain.only_A_and_AB) = true
            ↔ a = 1))
      ∧ (∀ a, binary a →
           feasible [cB1; cB2]
             (set_appear Chain.solver Chain.B a Chain.only_A_and_AB) = false)
      ∧ (∀ a, binary a →
           (feasible [cA]
              (set_appear Chain.solver Chain.A a Chain.A_B_and_AB) = true
            ↔ a = 1))
      ∧ (∀ a, binary a →
           (feasible [cB1; cB2]
              (set_appear Chain.solver Chain.B a Chain.A_B_and_AB) = true
            ↔ a = 0)).
Proof.
  split.
  - eexists. split; [reflexivity|].
    repeat constructor; eexists; split; reflexivity.
  - eexists _, _, _, _, _. split_and!; try reflexivity.
    + intros a [-> | ->]; vm_compute; split; congruence.
    + intros a [-> | ->]; reflexivity.
    + intros a [-> | ->]; vm_compute; split; congruence.
    + intros a [-> | ->]; vm_compute; split; congruence.
Qed.

(** * The theorems at work on the chain *)

Lemma general_case_constraints_witness :
  well_formed Chain.solver = true
  ∧ Chain.B ∈ (nodes (graph Chain.solver)).*1
  ∧ ∃ cx ca cols c1 c2,
      getitem (node_selected Chain.solver) Chain.B = Some cx
      ∧ getitem (node_appear Chain.solver) Chain.B = Some ca
      ∧ Forall2 (λ e col, getitem (edge_selected Chain.solver) e = Some col)
          (prev_edges (graph Chain.solver) Chain.B) cols
      ∧ NoDup (cx :: ca :: cols)
      ∧ NodeAppear.loop_body Chain.solver Chain.B = Ok [c1; c2]
      ∧ (∃ before after,
           NodeAppear.instantiate_constraints Chain.solver
           = (before ++ [c1; c2] ++ after, None))
      ∧ ilpy.coefficients c1
        = list_to_map ((cx, 1) :: (ca, -1) :: ((λ col, (col, -1)) <$> cols))
      ∧ ilpy.relation c1 = ilpy.LessEqual
      ∧ ilpy.value c1 = 1 - 1
      ∧ ilpy.coefficients c2
        = list_to_map ((cx, 1) :: (ca, - 1) :: ((λ col, (col, -1)) <$> cols))
      ∧ ilpy.relation c2 = ilpy.GreaterEqual
      ∧ ilpy.value c2 = 0
      ∧ ∀ sol,
          let s := 1 * sol cx - sum_list (sol <$> cols) in
          (ilpy.satisfied c1 sol = true ↔ (s - sol ca <= 1 - 1)%Z)
          ∧ (ilpy.satisfied c2 sol = true ↔ (s - 1 * sol ca >= 0)%Z).
Proof.
  assert (Chain.B ∈ (nodes (graph Chain.solver)).*1) as Hnode.
  { apply list_elem_of_In. simpl. auto. }
  split; [reflexivity|]. split; [exact Hnode|].
  apply (general_case_constraints Chain.solver Chain.B 1);
    [reflexivity | exact Hnode | reflexivity | lia].
Defined.

Lemma fan_in_unique_feasible_witness :
  well_formed Chain.solver = true
  ∧ Chain.B ∈ (nodes (graph Chain.solver)).*1
  ∧ prev_edges (graph Chain.solver) Chain.B ≠ []
  ∧ binary (selected Chain.solver Chain.A_B_and_AB Chain.B)
  ∧ Forall binary (incoming Chain.solver Chain.A_B_and_AB Chain.B)
  ∧ ∃ c1 c2,
      NodeAppear.loop_body Chain.solver Chain.B = Ok [c1; c2]
      ∧ (∃ before after,
           NodeAppear.instantiate_constraints Chain.solver
           = (before ++ [c1; c2] ++ after, None))
      ∧ (selected Chain.solver Chain.A_B_and_AB Chain.B = 1
         ∨ Forall (λ e, e = 0)
             (incoming Chain.solver Chain.A_B_and_AB Chain.B) →
         ∃ a,
           binary a
           ∧ feasible [c1; c2]
               (set_appear Chain.solver Chain.B a Chain.A_B_and_AB) = true
           ∧ (∀ a', binary a' →
                feasible [c1; c2]
                  (set_appear Chain.solver Chain.B a' Chain.A_B_and_AB) = true →
                a' = a)
           ∧ (a = 1
              ↔ selected Chain.solver Chain.A_B_and_AB Chain.B = 1
                ∧ Forall (λ e, e = 0)
                    (incoming Chain.solver Chain.A_B_and_AB Chain.B)))
      ∧ (¬ (selected Chain.solver Chain.A_B_and_AB Chain.B = 1
            ∨ Forall (λ e, e = 0)
                (incoming Chain.solver Chain.A_B_and_AB Chain.B)) →
         ∀ a, binary a →
           feasible [c1; c2]
             (set_appear Chain.solver Chain.B a Chain.A_B_and_AB) = false).
Proof.
  assert (Chain.B ∈ (nodes (graph Chain.solver)).*1) as Hnode.
  { apply list_elem_of_In. simpl. auto. }
  assert (prev_edges (graph Chain.solver) Chain.B ≠ []) as Hprev.
  { discriminate. }
  assert (binary (selected Chain.solver Chain.A_B_and_AB Chain.B)) as Hx.
  { right. reflexivity. }
  assert (Forall binary (incoming Chain.solver Chain.A_B_and_AB Chain.B))
    as Hes.
  { constructor; [right; reflexivity | constructor]. }
  split_and!; try done.
  exact (fan_in_unique_feasible Chain.solver Chain.B Chain.A_B_and_AB
           eq_refl Hnode Hprev Hx Hes).
Defined.

Lemma zero_fan_in_constraint_witness :
  well_formed Chain.solver = true
  ∧ Chain.A ∈ (nodes (graph Chain.solver)).*1
  ∧ prev_edges (graph Chain.solver) Chain.A = []
  ∧ ∃ cx ca c,
      getitem (node_selected Chain.solver) Chain.A = Some cx
      ∧ getitem (node_appear Chain.solver) Chain.A = Some ca
      ∧ cx ≠ ca
      ∧ NodeAppear.loop_body Chain.solver Chain.A = Ok [c]
      ∧ (∃ before after,
           NodeAppear.instantiate_constraints Chain.solver
           = (before ++ [c] ++ after, None))
      ∧ ilpy.coefficients c = {[ cx := 1; ca := -1 ]}
      ∧ ilpy.relation c = ilpy.Equal
      ∧ ilpy.value c = 0
      ∧ ∀ sol (a : Z),
          feasible [c] (set_appear Chain.solver Chain.A a sol) = true
          ↔ a = selected Chain.solver sol Chain.A.
Proof.
  assert (Chain.A ∈ (nodes (graph Chain.solver)).*1) as Hnode.
  { apply list_elem_of_In. simpl. auto. }
  split; [reflexivity|]. split; [exact Hnode|]. split; [reflexivity|].
  apply (zero_fan_in_constraint Chain.solver Chain.A);
    [reflexivity | exact Hnode | reflexivity].
Defined.

Lemma yielded_constraints_nonempty_witness :
  let c :=
    ilpy.set_value 0 (ilpy.set_relation ilpy.Equal
      (ilpy.set_coefficient 5 (-1) (ilpy.set_coefficient 0 1 ilpy.new))) in
  c ∈ (NodeAppear.instantiate_constraints Chain.solver).1
  ∧ ∃ col coef, ilpy.coefficients c !! col = Some coef ∧ coef ≠ 0.
Proof.
  intros c.
  assert (c ∈ (NodeAppear.instantiate_constraints Chain.solver).1) as Hc.
  { apply list_elem_of_here. }
  split; [exact Hc|].
  exact (yielded_constraints_nonempty Chain.solver c Hc).
Defined.

Lemma instantiate_nodes_witness :
  let solver' := set_objective Chain.solver (λ _, 1%float) in
  graph Chain.solver = graph solver'
  ∧ NodeAppear.instantiate Chain.solver = NodeAppear.instantiate solver'
  ∧ (∀ node,
       node ∈ NodeAppear.instantiate Chain.solver
       ↔ is_Some (getitem (nodes (graph Chain.solver)) node))
  ∧ (∀ node,
       is_Some (getitem (nodes (graph Chain.solver)) node) →
       is_Some
         (getitem (allocate (NodeAppear.instantiate Chain.solver) 5) node)).
Proof.
  intros solver'. split; [reflexivity|].
  apply (instantiate_nodes Chain.solver solver' 5). reflexivity.
Defined.

Lemma apply_contributions_witness :
  NoDup (node_selected Chain.solver).*2
  ∧ resolve (parameters Chain.solver) (NodeSelection.weight Chain.costs)
    = Ok 2%float
  ∧ resolve (parameters Chain.solver) (NodeSelection.constant Chain.costs)
    = Ok 0.5%float
  ∧ (∀ node index, (node, index) ∈ node_selected Chain.solver →
       ∃ attrs v,
         getitem (nodes (graph Chain.solver)) node = Some attrs
         ∧ attrs !! NodeSelection.attribute Chain.costs = Some v)
  ∧ ∃ solver',
      run (NodeSelection.apply Chain.costs) Chain.solver = (solver', Ok tt)
      ∧ constraints solver' = constraints Chain.solver
      ∧ same_model Chain.solver solver'
      ∧ (∀ node index attrs v,
           (node, index) ∈ node_selected Chain.solver →
           getitem (nodes (graph Chain.solver)) node = Some attrs →
           attrs !! NodeSelection.attribute Chain.costs = Some v →
           objective solver' index
           = add (add (objective Chain.solver index) (mul 2%float v))
               (mul 0.5%float one))
      ∧ (∀ col, col ∉ (node_selected Chain.solver).*2 →
           objective solver' col = objective Chain.solver col).
Proof.
  assert (NoDup (node_selected Chain.solver).*2) as Hnd.
  { apply (bool_decide_unpack _). reflexivity. }
  assert (∀ node index, (node, index) ∈ node_selected Chain.solver →
    ∃ attrs v,
      getitem (nodes (graph Chain.solver)) node = Some attrs
      ∧ attrs !! NodeSelection.attribute Chain.costs = Some v) as Hattrs.
  { intros node index Hin.
    repeat (apply elem_of_cons in Hin as [[= -> ->]|Hin];
            [eexists _, _; split; reflexivity|]).
    by apply elem_of_nil in Hin. }
  split; [exact Hnd|]. split; [reflexivity|]. split; [reflexivity|].
  split; [exact Hattrs|].
  exact (apply_contributions Chain.costs Chain.solver 2%float 0.5%float
           Hnd eq_refl eq_refl Hattrs).
Defined.


Lemma apply_raises_LookupError_witness :
  let solver := Chain.solver_without_B_costs in
  (Chain.B, 1%nat) ∈ node_selected solver
  ∧ getitem (nodes (graph solver)) Chain.B = Some ∅
  ∧ ∃ solver' e,
      run (NodeSelection.apply Chain.costs) solver = (solver', Raise e)
      ∧ isinstance e cLookupError = true.
Proof.
  intros solver.
  assert ((Chain.B, 1%nat) ∈ node_selected solver) as Hin.
  { apply list_elem_of_In. simpl. auto. }
  split; [exact Hin|]. split; [reflexivity|].
  exact (apply_raises_LookupError 2%float None (Some 0.5%float) solver
           Chain.B 1%nat ∅ Hin eq_refl eq_refl).
Defined.

Lemma draw_track_graph_exclusive_options_witness :
  is_not_None (@None string) && is_not_None (@None (NodeId → Result float))
  || is_not_None (Some "alpha"%string)
     && is_not_None (Some (plot.Callable (λ _, Ok 1%float)))
  || is_not_None (@None string)
     && is_not_None (@None (plot.Callables (float + string))) = true
  ∧ plot.draw_track_graph Chain.draw_nothing Chain.track_graph
      None None (Some "alpha"%string) (Some (plot.Callable (λ _, Ok 1%float)))
      None None tt
    = Raise (RuntimeError
        "Only one of alpha_attribute and alpha_func can be given")
  ∧ isinstance
      (RuntimeError "Only one of alpha_attribute and alpha_func can be given")
      cRuntimeError = true
  ∧ isinstance
      (RuntimeError "Only one of alpha_attribute and alpha_func can be given")
      cConfigurationError = false.
Proof.
  split; [reflexivity|].
  exact (draw_track_graph_exclusive_options Chain.draw_nothing
           Chain.track_graph None None (Some "alpha"%string)
           (Some (plot.Callable (λ _, Ok 1%float))) None None tt eq_refl).
Defined.

(** * [NodeAppear]: how the generator runs on any solver *)
Section SubscriptFacts.
Context {K V : Type} `{EqDecision K}.

Lemma subscript_Ok_inv (key : K → Key) (d : list (K * V)) (k : K) (v : V) :
  subscript key d k = Ok v → getitem d k = Some v.
Proof. unfold subscript. destruct (getitem d k); [by intros [= ->] | done]. Qed.

Lemma subscript_Raise_inv (key : K → Key) (d : list (K * V)) (k : K) e :
  subscript key d k = Raise e → getitem d k = None ∧ e = KeyError (key k).
Proof. unfold subscript. destruct (getitem d k); [done | by intros [= <-]]. Qed.
End SubscriptFacts.

Section NodeAppearRuns.
Context {F : Type}.
Implicit Types (solver : Solver F) (node : NodeId).

(** When the [for prev_edge] loop completes, every edge had a column and the
    constraints are the ones those columns give. *)
Lemma for_fold_prev_edges_inv (edge_indicators : list (EdgeId * Column))
    (es : list EdgeId) (c1 c2 : ilpy.LinearConstraint)
    (both : ilpy.LinearConstraint * ilpy.LinearConstraint) :
  for_fold es
    (λ '(constraint1, constraint2) prev_edge,
       e ← subscript EdgeKey edge_indicators prev_edge;
       let constraint1 := ilpy.set_coefficient e (-1) constraint1 in
       e ← subscript EdgeKey edge_indicators prev_edge;
       let constraint2 := ilpy.set_coefficient e (-1) constraint2 in
       mret (constraint1, constraint2))
    (c1, c2)
  = Ok both →
  ∃ cols,
    Forall2 (λ e col, getitem edge_indicators e = Some col) es cols
    ∧ both = (set_edges cols c1, set_edges cols c2).
Proof.
  revert c1 c2. induction es as [|e es IH]; intros c1 c2; simpl.
  - intros [= <-]. exists []. split; [constructor | done].
  - destruct (subscript EdgeKey edge_indicators e) as [col|] eqn:He;
      simpl; [|done].
    apply subscript_Ok_inv in He.
    intros (cols & Hcols & ->)%IH.
    exists (col :: cols). split; [by constructor | done].
Qed.

(** When the [for prev_edge] loop raises, it is the [KeyError] of an edge
    without a column, and the edges before it had one. *)
Lemma for_fold_prev_edges_raise_inv (edge_indicators : list (EdgeId * Column))
    (es : list EdgeId) (c1 c2 : ilpy.LinearConstraint) e :
  for_fold es
    (λ '(constraint1, constraint2) prev_edge,
       e ← subscript EdgeKey edge_indicators prev_edge;
       let constraint1 := ilpy.set_coefficient e (-1) constraint1 in
       e ← subscript EdgeKey edge_indicators prev_edge;
       let constraint2 := ilpy.set_coefficient e (-1) constraint2 in
       mret (constraint1, constraint2))
    (c1, c2)
  = Raise e →
  ∃ es1 edge es2,
    es = es1 ++ edge :: es2
    ∧ Forall (λ e', is_Some (getitem edge_indicators e')) es1
    ∧ getitem edge_indicators edge = None
    ∧ e = KeyError (EdgeKey edge).
Proof.
  revert c1 c2. induction es as [|edge es IH]; intros c1 c2; simpl; [done|].
  destruct (subscript EdgeKey edge_indicators edge) as [col|e'] eqn:He; simpl.
  - apply subscript_Ok_inv in He.
    intros (es1 & edge' & es2 & -> & Hes1 & Hedge' & ->)%IH.
    exists (edge :: es1), edge', es2. split_and!; try done.
    constructor; [eauto | done].
  - apply subscript_Raise_inv in He as [He ->]. intros [= <-].
    exists [], edge, es. split_and!; try done.
Qed.

(** What a round that yields has looked up, and what it yields. *)
Lemma loop_body_inv solver node cs :
  NodeAppear.loop_body solver node = Ok cs →
  ∃ cx ca cols,
    getitem (node_selected solver) node = Some cx
    ∧ getitem (node_appear solver) node = Some ca
    ∧ Forall2 (λ e col, getitem (edge_selected solver) e = Some col)
        (prev_edges (graph solver) node) cols
    ∧ let k := Z.of_nat (length (prev_edges (graph solver) node)) in
      cs = if decide (k = 0)
           then [ilpy.set_value 0 (ilpy.set_relation ilpy.Equal
                   (ilpy.set_coefficient ca (-1)
                      (ilpy.set_coefficient cx 1 ilpy.new)))]
           else [ilpy.set_value (k - 1) (ilpy.set_relation ilpy.LessEqual
                   (ilpy.set_coefficient ca (-1)
                      (set_edges cols (ilpy.set_coefficient cx k ilpy.new))));
                 ilpy.set_value 0 (ilpy.set_relation ilpy.GreaterEqual
                   (ilpy.set_coefficient ca (- k)
                      (set_edges cols (ilpy.set_coefficient cx k ilpy.new))))].
Proof.
  unfold NodeAppear.loop_body. simpl get_variables.
  destruct (subscript NodeKey (node_selected solver) node) as [cx|] eqn:Hx;
    [apply subscript_Ok_inv in Hx | by destruct (decide _)].
  destruct (subscript NodeKey (node_appear solver) node) as [ca|] eqn:Ha;
    [apply subscript_Ok_inv in Ha|].
  - destruct (decide _) as [Hk|Hk]; simpl.
    + intros [= <-]. exists cx, ca, []. split_and!; try done.
      assert (prev_edges (graph solver) node = []) as ->; [|constructor].
      apply length_zero_iff_nil. lia.
    + destruct (for_fold _ _ _) as [both|] eqn:Hfold; simpl; [|done].
      apply for_fold_prev_edges_inv in Hfold as (cols & Hcols & ->).
      simpl. intros [= <-]. by exists cx, ca, cols.
  - destruct (decide _); simpl; [done|].
    by destruct (for_fold _ _ _) as [[]|].
Qed.

Lemma for_yield_app {A B : Type} (xs ys : list A)
    (body : A → Result (list B)) :
  for_yield (xs ++ ys) body
  = match for_yield xs body with
    | (cs, None) => let '(ds, r) := for_yield ys body in (cs ++ ds, r)
    | (cs, Some e) => (cs, Some e)
    end.
Proof.
  induction xs as [|x xs IH]; simpl.
  - by destruct (for_yield ys body).
  - destruct (body x) as [cs|e]; [|done]. rewrite IH.
    destruct (for_yield xs body) as [cs' [e|]]; [done|].
    destruct (for_yield ys body) as [ds r]. by rewrite (assoc_L (++)).
Qed.

(** Where a generator loop that ends in an exception stopped. *)
Lemma for_yield_raise_inv {A B : Type} (xs : list A)
    (body : A → Result (list B)) (cs : list B) e :
  for_yield xs body = (cs, Some e) →
  ∃ pre x post,
    xs = pre ++ x :: post
    ∧ for_yield pre body = (cs, None)
    ∧ body x = Raise e.
Proof.
  revert cs. induction xs as [|x xs IH]; intros cs; simpl; [done|].
  destruct (body x) as [ys|e'] eqn:Hx.
  - destruct (for_yield xs body) as [zs r] eqn:Hxs. intros [= <- ->].
    destruct (IH zs eq_refl) as (pre & x' & post & -> & Hpre & Hx').
    exists (x :: pre), x', post. split_and!; [done | | done].
    simpl. by rewrite Hx, Hpre.
  - intros [= <- <-]. by exists [], x, xs.
Qed.

(** X1.  On a well-formed solver the generator never raises, and it yields
    one constraint for each node without incoming edges and two for each
    node with incoming edges. *)
Theorem instantiate_constraints_count solver :
  well_formed solver = true →
  ∃ cs,
    NodeAppear.instantiate_constraints solver = (cs, None)
    ∧ length cs
      = sum_list_with
          (λ node,
             if decide (prev_edges (graph solver) node = [])
             then 1%nat else 2%nat)
          (nodes (graph solver)).*1.
Proof.
  intros Hwf. unfold NodeAppear.instantiate_constraints.
  assert (Forall (λ node, node ∈ (nodes (graph solver)).*1)
            (nodes (graph solver)).*1) as Hall.
  { by apply Forall_forall. }
  induction Hall as [|node rest Hnode _ IH]; simpl.
  { by exists []. }
  destruct (well_formed_loop_body _ _ Hwf Hnode) as [cs Hcs].
  destruct IH as (ds & -> & Hds). rewrite Hcs.
  exists (cs ++ ds). split; [done|]. rewrite length_app, Hds. f_equal.
  apply loop_body_inv in Hcs as (cx & ca & cols & _ & _ & _ & ->).
  destruct (decide (prev_edges (graph solver) node = [])) as [->|Hprev].
  - reflexivity.
  - rewrite decide_False; [done|].
    intros Hk. apply Hprev, length_zero_iff_nil. lia.
Qed.

(** X2.  If the generator raises, the exception is the [KeyError] of a
    missing indicator: of a graph node without a NodeSelected or a
    NodeAppear column, or of one of its incoming edges without an
    EdgeSelected column; and what was yielded before is exactly what the
    nodes in front of that node give. *)
Theorem instantiate_constraints_raise_inv solver cs e :
  NodeAppear.instantiate_constraints solver = (cs, Some e) →
  ∃ pre node post,
    (nodes (graph solver)).*1 = pre ++ node :: post
    ∧ for_yield pre (NodeAppear.loop_body solver) = (cs, None)
    ∧ ((e = KeyError (NodeKey node)
        ∧ (getitem (node_selected solver) node = None
           ∨ getitem (node_appear solver) node = None))
       ∨ ∃ edge,
           edge ∈ prev_edges (graph solver) node
           ∧ getitem (edge_selected solver) edge = None
           ∧ e = KeyError (EdgeKey edge)).
Proof.
  intros (pre & node & post & Hnodes & Hpre & Hbody)%for_yield_raise_inv.
  exists pre, node, post. split; [done|]. split; [done|].
  revert Hbody. unfold NodeAppear.loop_body. simpl get_variables.
  destruct (subscript NodeKey (node_selected solver) node) as [cx|e'] eqn:Hx.
  2:{ apply subscript_Raise_inv in Hx as [Hx ->].
      destruct (decide _); simpl; intros [= <-]; left; auto. }
  destruct (subscript NodeKey (node_appear solver) node) as [ca|e'] eqn:Ha.
  { destruct (decide _); simpl; [done|].
    destruct (for_fold _ _ _) as [[]|e'] eqn:Hfold; simpl; [done|].
    intros [= <-]. right.
    apply for_fold_prev_edges_raise_inv in Hfold
      as (es1 & edge & es2 & Hes & _ & Hedge & ->).
    exists edge. split_and!; [|done..].
    rewrite Hes. apply elem_of_app. right. apply list_elem_of_here. }
  apply subscript_Raise_inv in Ha as [Ha ->].
  destruct (decide _); simpl; [intros [= <-]; left; auto|].
  destruct (for_fold _ _ _) as [[]|e'] eqn:Hfold; simpl.
  - intros [= <-]. left. auto.
  - intros [= <-]. right.
    apply for_fold_prev_edges_raise_inv in Hfold
      as (es1 & edge & es2 & Hes & _ & Hedge & ->).
    exists edge. split_and!; [|done..].
    rewrite Hes. apply elem_of_app. right. apply list_elem_of_here.
Qed.

(** X3.  A graph node without a NodeSelected column stops the generator:
    after the constraints of the nodes in front of it, the subscript
    [node_indicators[node]] raises [KeyError] for the node, and nothing is
    yielded for it or for any later node. *)
Theorem instantiate_constraints_missing_node_indicator solver pre node post cs :
  (nodes (graph solver)).*1 = pre ++ node :: post →
  for_yield pre (NodeAppear.loop_body solver) = (cs, None) →
  getitem (node_selected solver) node = None →
  NodeAppear.instantiate_constraints solver
  = (cs, Some (KeyError (NodeKey node))).
Proof.
  intros Hnodes Hpre Hx. unfold NodeAppear.instantiate_constraints.
  rewrite Hnodes, for_yield_app, Hpre. simpl.
  unfold NodeAppear.loop_body. simpl get_variables.
  rewrite (subscript_None _ _ _ Hx).
  destruct (decide _); simpl; by rewrite (right_id_L [] (++)).
Qed.

(** X4.  An incoming edge without an EdgeSelected column stops the generator
    in the middle of a round: the [KeyError] is that of the first such edge
    of the node, and the two constraints under construction are dropped, so
    that nothing is yielded for the node. *)
Theorem instantiate_constraints_missing_edge_indicator solver pre node post cs
    cx es1 edge es2 :
  (nodes (graph solver)).*1 = pre ++ node :: post →
  for_yield pre (NodeAppear.loop_body solver) = (cs, None) →
  getitem (node_selected solver) node = Some cx →
  prev_edges (graph solver) node = es1 ++ edge :: es2 →
  Forall (λ e', is_Some (getitem (edge_selected solver) e')) es1 →
  getitem (edge_selected solver) edge = None →
  NodeAppear.instantiate_constraints solver
  = (cs, Some (KeyError (EdgeKey edge))).
Proof.
  intros Hnodes Hpre Hx Hprev Hes1 Hedge.
  unfold NodeAppear.instantiate_constraints.
  rewrite Hnodes, for_yield_app, Hpre. simpl.
  assert (NodeAppear.loop_body solver node = Raise (KeyError (EdgeKey edge)))
    as ->; [|by rewrite (right_id_L [] (++))].
  unfold NodeAppear.loop_body. simpl get_variables.
  rewrite (subscript_Some _ _ _ _ Hx), Hprev.
  destruct (decide _) as [Hk|_].
  { rewrite length_app in Hk. simpl in Hk. lia. }
  rewrite !bind_Ok.
  clear Hprev. generalize (Z.of_nat (length (es1 ++ edge :: es2))). intros k.
  generalize (ilpy.set_coefficient cx k ilpy.new). intros c.
  generalize c at 1. revert c.
  induction Hes1 as [|e' es1 [col He'] _ IH]; intros c c'; simpl.
  - by rewrite (subscript_None _ _ _ Hedge).
  - rewrite (subscript_Some _ _ _ _ He'). simpl. apply IH.
Qed.

(** X5.  Every coefficient of every constraint the generator yields, on any
    solver, sits on a column of the registry: the generator never writes a
    coefficient for a column that was not handed out. *)
Theorem yielded_columns_registered solver c (col : Column) :
  c ∈ (NodeAppear.instantiate_constraints solver).1 →
  is_Some (ilpy.coefficients c !! col) →
  col ∈ columns solver.
Proof.
  intros (node & cs & _ & Hbody & Hc)%for_yield_elem_of.
  apply loop_body_inv in Hbody as (cx & ca & cols & Hx & Ha & Hcols & ->).
  apply getitem_value in Hx, Ha.
  assert (∀ j, j ∈ cols → j ∈ (edge_selected solver).*2) as Hedges.
  { clear Hc. induction Hcols as [|e j es cols He _ IH].
    - by intros j ?%elem_of_nil.
    - intros j' [->|Hj]%elem_of_cons; [by eapply getitem_value | auto]. }
  assert (col = cx ∨ col = ca ∨ col ∈ cols → col ∈ columns solver) as Hreg.
  { unfold columns. rewrite !elem_of_app.
    intros [->| [->|Hin]]; auto. }
  intros Hcol. apply Hreg. destruct (decide _) as [_|_].
  - apply list_elem_of_singleton in Hc as ->. simpl in Hcol.
    destruct (decide (col = ca)) as [|Hne]; [auto|].
    rewrite lookup_insert_ne in Hcol by done.
    destruct (decide (col = cx)) as [|Hne']; [auto|].
    rewrite lookup_insert_ne, lookup_empty in Hcol by done.
    by destruct Hcol.
  - assert (is_Some (ilpy.coefficients
              (set_edges cols (ilpy.set_coefficient cx
                 (Z.of_nat (length (prev_edges (graph solver) node)))
                 ilpy.new)) !! col) → col = cx ∨ col ∈ cols) as Hinner.
    { rewrite coefficients_set_edges.
      destruct (decide (col ∈ cols)); [auto|]. simpl.
      destruct (decide (col = cx)) as [|Hne']; [auto|].
      rewrite lookup_insert_ne, lookup_empty by done. by intros []. }
    destruct (decide (col = ca)) as [|Hne]; [auto|].
    apply elem_of_cons in Hc as [->|Hc];
      [|apply list_elem_of_singleton in Hc as ->];
      simpl in Hcol; rewrite lookup_insert_ne in Hcol by done;
      destruct (Hinner Hcol); auto.
Qed.
End NodeAppearRuns.

(** * [NodeSelection]: what [apply] leaves alone, and when it succeeds *)
Section NodeSelectionRuns.
Context {F : Type} `{Scalar F}.
Implicit Types (solver : Solver F) (self : NodeSelection.t F)
  (items : list (NodeId * Column)).

(** A call of [add_variable_cost], whether it returns or raises, changes at
    most the objective coefficient of its column. *)
Lemma run_add_variable_cost_frame solver index value (weight : Weight F) :
  same_model solver (run (add_variable_cost index value weight) solver).1
  ∧ ∀ col, col ≠ index →
      objective (run (add_variable_cost index value weight) solver).1 col
      = objective solver col.
Proof.
  unfold add_variable_cost. rewrite !run_bind. simpl.
  destruct (resolve (parameters solver) weight) as [w|e]; simpl.
  - split; [by repeat split|]. intros col Hcol. by rewrite fn_lookup_insert_ne.
  - split; [apply same_model_refl | done].
Qed.

Lemma run_loop_body_unfold self solver node index :
  run (NodeSelection.loop_body self (node, index)) solver
  = match NodeSelection.node_attribute solver node
            (NodeSelection.attribute self) with
    | Raise e => (solver, Raise e)
    | Ok v =>
        match run (add_variable_cost index v (NodeSelection.weight self))
                solver with
        | (solver1, Ok _) =>
            run (add_variable_cost index one (NodeSelection.constant self))
              solver1
        | (solver1, Raise e) => (solver1, Raise e)
        end
    end.
Proof.
  unfold NodeSelection.loop_body. rewrite !run_bind. simpl.
  by destruct (NodeSelection.node_attribute solver node _).
Qed.

Lemma run_loop_body_frame self solver node index :
  same_model solver (run (NodeSelection.loop_body self (node, index)) solver).1
  ∧ ∀ col, col ≠ index →
      objective (run (NodeSelection.loop_body self (node, index)) solver).1 col
      = objective solver col.
Proof.
  rewrite run_loop_body_unfold.
  destruct (NodeSelection.node_attribute solver node _) as [v|e].
  2:{ split; [apply same_model_refl | done]. }
  destruct (run_add_variable_cost_frame solver index v
              (NodeSelection.weight self)) as [Hsame1 Hrest1].
  destruct (run (add_variable_cost index v (NodeSelection.weight self)) solver)
    as [solver1 [[]|e]]; [|done].
  destruct (run_add_variable_cost_frame solver1 index one
              (NodeSelection.constant self)) as [Hsame2 Hrest2].
  split; [by eapply same_model_trans|].
  intros col Hcol. rewrite Hrest2 by done. by apply Hrest1.
Qed.

Lemma run_for_each_frame self items : ∀ solver,
  same_model solver
    (run (for_each items (NodeSelection.loop_body self)) solver).1
  ∧ ∀ col, col ∉ items.*2 →
      objective (run (for_each items (NodeSelection.loop_body self)) solver).1
        col
      = objective solver col.
Proof.
  induction items as [|[node index] items IH]; intros solver.
  { split; [apply same_model_refl | done]. }
  rewrite run_for_each_cons.
  destruct (run_loop_body_frame self solver node index) as [Hsame1 Hrest1].
  destruct (run (NodeSelection.loop_body self (node, index)) solver)
    as [solver1 [[]|e]]; simpl in *.
  - destruct (IH solver1) as [Hsame Hrest]. split.
    + by eapply same_model_trans.
    + intros col [Hne Hcol]%not_elem_of_cons. by rewrite Hrest, Hrest1.
  - split; [done|]. intros col [Hne Hcol]%not_elem_of_cons. by apply Hrest1.
Qed.

(** X6.  Whatever its weights and whether it returns or raises, [apply]
    leaves the graph, the three variable mappings, the parameters and the
    constraints as they were, and changes no objective coefficient outside
    the columns of the NodeSelected mapping. *)
Theorem apply_frame self solver :
  same_model solver (run (NodeSelection.apply self) solver).1
  ∧ ∀ col, col ∉ (node_selected solver).*2 →
      objective (run (NodeSelection.apply self) solver).1 col
      = objective solver col.
Proof. rewrite run_apply. apply run_for_each_frame. Qed.

(** The constraints of [NodeAppear] depend on the graph and on the variable
    mappings only. *)
Lemma instantiate_constraints_same_model solver solver' :
  same_model solver solver' →
  NodeAppear.instantiate_constraints solver'
  = NodeAppear.instantiate_constraints solver.
Proof.
  intros (Hg & Hns & Hes & Hna & _).
  unfold NodeAppear.instantiate_constraints, NodeAppear.loop_body. simpl.
  by rewrite Hg, Hns, Hes, Hna.
Qed.

(** X7.  Costs and constraints do not interfere: after [apply], finished or
    interrupted by an exception, [NodeAppear.instantiate_constraints] yields
    what it yields before. *)
Theorem instantiate_constraints_after_apply self solver :
  NodeAppear.instantiate_constraints (run (NodeSelection.apply self) solver).1
  = NodeAppear.instantiate_constraints solver.
Proof.
  apply instantiate_constraints_same_model. rewrite run_apply.
  apply run_for_each_frame.
Qed.

(** The outcome of the loop with literal weights: it returns when every
    item's attribute read returns, and what it raises was raised by the
    attribute read of one of its items. *)
Lemma run_for_each_outcome (w c : F) name items : ∀ solver,
  let self :=
    {| NodeSelection.weight := Literal w;
       NodeSelection.constant := Literal c;
       NodeSelection.attribute := name |} in
  ((run (for_each items (NodeSelection.loop_body self)) solver).2 = Ok tt
   ↔ ∀ node index, (node, index) ∈ items →
       ∃ v, NodeSelection.node_attribute solver node name = Ok v)
  ∧ ∀ e,
      (run (for_each items (NodeSelection.loop_body self)) solver).2 = Raise e →
      ∃ node index,
        (node, index) ∈ items
        ∧ NodeSelection.node_attribute solver node name = Raise e.
Proof.
  intros solver self. revert solver.
  induction items as [|[node index] items IH]; intros solver.
  { split; [|done]. split; [|done]. by intros _ ?? ?%elem_of_nil. }
  rewrite run_for_each_cons.
  destruct (NodeSelection.node_attribute solver node name) as [v|e] eqn:Hv.
  - destruct (run_loop_body_Ok self solver node index v w c)
      as (solver1 & -> & Hsame & _); [done..|].
    destruct (IH solver1) as [IHok IHraise]. split.
    + rewrite IHok. split.
      * intros Hall node' index' [[= -> ->]|Hin]%elem_of_cons; [eauto|].
        rewrite <- (node_attribute_same_model _ _ _ _ Hsame). eauto.
      * intros Hall node' index' Hin.
        rewrite (node_attribute_same_model _ _ _ _ Hsame).
        apply (Hall node' index'). by apply list_elem_of_further.
    + intros e (node' & index' & Hin & He)%IHraise.
      rewrite (node_attribute_same_model _ _ _ _ Hsame) in He.
      exists node', index'. split; [by apply list_elem_of_further | done].
  - rewrite (run_loop_body_Raise self solver node index e) by done. simpl.
    split.
    + split; [done|]. intros Hall.
      destruct (Hall node index) as [v Hv']; [apply list_elem_of_here|].
      rewrite Hv in Hv'. done.
    + intros e' [= <-]. exists node, index.
      split; [apply list_elem_of_here | done].
Qed.

(** X8.  For a [NodeSelection] built by its constructor, [apply] returns
    exactly when every node of the NodeSelected mapping is in the graph and
    carries the attribute; and when it raises, the exception is the
    [KeyError] that the read [solver.graph.nodes[node][self.attribute]]
    raises for one of those nodes. *)
Theorem apply_outcome (weight : F) (attribute : option string)
    (constant : option F) solver :
  let self := NodeSelection.__init__ weight attribute constant in
  ((run (NodeSelection.apply self) solver).2 = Ok tt
   ↔ ∀ node index, (node, index) ∈ node_selected solver →
       ∃ attrs v,
         getitem (nodes (graph solver)) node = Some attrs
         ∧ attrs !! NodeSelection.attribute self = Some v)
  ∧ ∀ e,
      (run (NodeSelection.apply self) solver).2 = Raise e →
      ∃ node index key,
        (node, index) ∈ node_selected solver
        ∧ e = KeyError key
        ∧ NodeSelection.node_attribute solver node
            (NodeSelection.attribute self) = Raise e.
Proof.
  intros self. rewrite run_apply.
  destruct (run_for_each_outcome weight (default zero constant)
              (default "costs"%string attribute) (node_selected solver) solver)
    as [Hok Hraise].
  split.
  - etrans; [exact Hok|]. apply forall_proper. intros node.
    apply forall_proper. intros index.
    split; intros Hattr Hin; specialize (Hattr Hin).
    + destruct Hattr as [v Hv]. revert Hv.
      unfold NodeSelection.node_attribute, subscript.
      destruct (getitem _ node) as [attrs|]; simpl; [|done].
      destruct (attrs !! _) as [v'|] eqn:Hv'; [|done].
      intros _. by exists attrs, v'.
    + destruct Hattr as (attrs & v & Hnode & Hv). exists v.
      unfold NodeSelection.node_attribute, subscript.
      rewrite Hnode. simpl. simpl in Hv. by rewrite Hv.
  - intros e (node & index & Hin & He)%Hraise.
    destruct (node_attribute_raises _ _ _ _ He) as [key ->].
    by exists node, index, key.
Qed.

End NodeSelectionRuns.

(** * [draw_track_graph]: when it draws, and with what *)
Section PlotRuns.
Context {F : Type} `{Scalar F} {Figure Style : Type}.

(** X11.  The three checks are made in the order position, alpha, label, and
    the first option given twice decides the message of the
    [RuntimeError], whatever the drawing back end and the later options. *)
Theorem draw_track_graph_first_conflict
    (draw :
       TrackGraph F →
       (NodeId → Result F) →
       (NodeId → Result F) → (EdgeId → Result F) →
       (NodeId → Result (F + string)) → (EdgeId → Result (F + string)) →
       Style → Result Figure)
    (graph : TrackGraph F)
    (position_attribute : option string)
    (position_func : option (NodeId → Result F))
    (alpha_attribute : option string)
    (alpha_func : option (plot.Callables F))
    (label_attribute : option string)
    (label_func : option (plot.Callables (F + string)))
    (style : Style) :
  let result :=
    plot.draw_track_graph draw graph position_attribute position_func
      alpha_attribute alpha_func label_attribute label_func style in
  let position := is_not_None position_attribute && is_not_None position_func in
  let alpha := is_not_None alpha_attribute && is_not_None alpha_func in
  let label := is_not_None label_attribute && is_not_None label_func in
  (position = true →
   result = Raise (RuntimeError
     "Only one of position_attribute and position_func can be given"))
  ∧ (position = false → alpha = true →
     result = Raise (RuntimeError
       "Only one of alpha_attribute and alpha_func can be given"))
  ∧ (position = false → alpha = false → label = true →
     result = Raise (RuntimeError
       "Only one of label_attribute and label_func can be given")).
Proof.
  unfold plot.draw_track_graph.
  destruct position_attribute, position_func; simpl;
    (split; [done|]);
    destruct alpha_attribute, alpha_func as [[]|]; simpl;
    (split; [done|]); try done;
    destruct label_attribute, label_func; simpl; done.
Qed.

(** X12.  When the position, the alpha value and the label are taken from
    attributes, the functions handed to the drawing back end treat a missing
    attribute differently: the position read raises [KeyError] for the
    attribute (["x"] when no name is given), while the alpha value falls
    back to [1.0] and the label to the empty string.  On a node or an edge
    that is not in the graph all of them raise its [KeyError]. *)
Theorem draw_track_graph_attribute_functions
    (draw :
       TrackGraph F →
       (NodeId → Result F) →
       (NodeId → Result F) → (EdgeId → Result F) →
       (NodeId → Result (F + string)) → (EdgeId → Result (F + string)) →
       Style → Result Figure)
    (graph : TrackGraph F) (position_attribute : option string)
    (alpha_attribute label_attribute : string) (style : Style) :
  ∃ position_func alpha_node_func alpha_edge_func label_node_func
      label_edge_func,
    plot.draw_track_graph draw graph position_attribute None
      (Some alpha_attribute) None (Some label_attribute) None style
    = draw graph position_func alpha_node_func alpha_edge_func
        label_node_func label_edge_func style
    ∧ (∀ node,
         match getitem (nodes graph) node with
         | None =>
             position_func node = Raise (KeyError (NodeKey node))
             ∧ alpha_node_func node = Raise (KeyError (NodeKey node))
             ∧ label_node_func node = Raise (KeyError (NodeKey node))
         | Some attrs =>
             position_func node
             = match attrs !! default "x"%string position_attribute with
               | Some v => Ok v
               | None =>
                   Raise (KeyError
                     (AttrKey (default "x"%string position_attribute)))
               end
             ∧ alpha_node_func node
               = Ok (match attrs !! alpha_attribute with
                     | Some v => v
                     | None => one
                     end)
             ∧ label_node_func node
               = Ok (match attrs !! label_attribute with
                     | Some v => inl v
                     | None => inr ""%string
                     end)
         end)
    ∧ (∀ edge,
         match getitem (edges graph) edge with
         | None =>
             alpha_edge_func edge = Raise (KeyError (EdgeKey edge))
             ∧ label_edge_func edge = Raise (KeyError (EdgeKey edge))
         | Some attrs =>
             alpha_edge_func edge
             = Ok (match attrs !! alpha_attribute with
                   | Some v => v
                   | None => one
                   end)
             ∧ label_edge_func edge
               = Ok (match attrs !! label_attribute with
                     | Some v => inl v
                     | None => inr ""%string
                     end)
         end).
Proof.
  unfold plot.draw_track_graph.
  destruct position_attribute as [name|]; simpl;
    (eexists _, _, _, _, _; split; [reflexivity|]);
    (split; [intros node | intros edge]); unfold subscript;
    try (destruct (getitem (nodes graph) node) as [attrs|]; simpl;
         [|done]; split_and!; try done;
         by destruct (attrs !! _));
    (destruct (getitem (edges graph) edge) as [attrs|]; simpl;
     [|done]; split; by destruct (attrs !! _)).
Qed.
End PlotRuns.

(** * [draw_solution] and [to_rgba] *)
Section DrawSolution.
Context {F : Type} `{Scalar F} {Figure Style : Type}.

(** X13.  [draw_solution] cannot be combined with [alpha_attribute]: since
    it always supplies [alpha_func] itself, a call that names an alpha
    attribute raises the [RuntimeError] of the alpha check, unless the
    position check has failed before; what the caller passed as
    [alpha_func] makes no difference. *)
Theorem draw_solution_alpha_attribute
    (draw :
       TrackGraph F →
       (NodeId → Result F) →
       (NodeId → Result F) → (EdgeId → Result F) →
       (NodeId → Result (F + string)) → (EdgeId → Result (F + string)) →
       Style → Result Figure)
    (graph : TrackGraph F) (solver : Solver F) (solution : Column → F)
    (position_attribute : option string)
    (position_func : option (NodeId → Result F))
    (alpha_attribute : string)
    (alpha_func : option (plot.Callables F))
    (label_attribute : option string)
    (label_func : option (plot.Callables (F + string)))
    (style : Style) :
  is_not_None position_attribute && is_not_None position_func = false →
  plot.draw_solution draw graph solver solution position_attribute
    position_func (Some alpha_attribute) alpha_func label_attribute
    label_func style
  = Raise (RuntimeError
      "Only one of alpha_attribute and alpha_func can be given").
Proof.
  unfold plot.draw_solution, plot.draw_track_graph.
  by destruct position_attribute, position_func.
Qed.

(** X14.  When no option is given twice, [draw_solution] hands to the
    drawing back end alpha functions that read the solution: the alpha
    value of a node or an edge is the solution value of its NodeSelected or
    EdgeSelected column, and asking for an element without such a column
    raises [KeyError]. *)
Theorem draw_solution_alpha_functions
    (draw :
       TrackGraph F →
       (NodeId → Result F) →
       (NodeId → Result F) → (EdgeId → Result F) →
       (NodeId → Result (F + string)) → (EdgeId → Result (F + string)) →
       Style → Result Figure)
    (graph : TrackGraph F) (solver : Solver F) (solution : Column → F)
    (position_attribute : option string)
    (position_func : option (NodeId → Result F))
    (alpha_func : option (plot.Callables F))
    (label_attribute : option string)
    (label_func : option (plot.Callables (F + string)))
    (style : Style) :
  is_not_None position_attribute && is_not_None position_func = false →
  is_not_None label_attribute && is_not_None label_func = false →
  ∃ position_func' alpha_node_func alpha_edge_func label_node_func
      label_edge_func,
    plot.draw_solution draw graph solver solution position_attribute
      position_func None alpha_func label_attribute label_func style
    = draw graph position_func' alpha_node_func alpha_edge_func
        label_node_func label_edge_func style
    ∧ (∀ node,
         alpha_node_func node
         = match getitem (node_selected solver) node with
           | Some index => Ok (solution index)
           | None => Raise (KeyError (NodeKey node))
           end)
    ∧ (∀ edge,
         alpha_edge_func edge
         = match getitem (edge_selected solver) edge with
           | Some index => Ok (solution index)
           | None => Raise (KeyError (EdgeKey edge))
           end).
Proof.
  intros Hposition Hlabel. unfold plot.draw_solution, plot.draw_track_graph.
  rewrite Hposition, Hlabel. simpl.
  destruct label_attribute, label_func as [[]|]; simpl in *; try done;
    (eexists _, _, _, _, _; split; [reflexivity|];
     split; [intros node | intros edge]; unfold subscript;
     [by destruct (getitem (node_selected solver) node)
     |by destruct (getitem (edge_selected solver) edge)]).
Qed.
End DrawSolution.

Section Colours.

Lemma comprehension_Done {A B : Type} (f : A → plot.Checked B) (xs : list A)
    (ys : list B) :
  plot.comprehension f xs = plot.Done ys
  ↔ Forall2 (λ x y, f x = plot.Done y) xs ys.
Proof.
  revert ys. induction xs as [|x xs IH]; intros ys.
  - simpl. split; [intros [= <-]; constructor | by intros ->%Forall2_nil_inv_l].
  - split.
    + simpl. destruct (f x) as [y|] eqn:Hx; simpl; [|done].
      destruct (plot.comprehension f xs) as [ys'|] eqn:Hxs; simpl; [|done].
      intros [= <-]. constructor; [done | by apply IH].
    + intros (y & ys' & Hy & Hys & ->)%Forall2_cons_inv_l.
      apply IH in Hys. simpl. by rewrite Hy, Hys.
Qed.

(** The list cases of [to_rgba] as comprehensions. *)
Lemma to_rgba_tuple_list (channels : list Z) (alphas : list plot.Alpha) :
  plot.to_rgba_tuple channels (plot.AlphaList alphas)
  = plot.StrList <$> plot.comprehension (plot.to_rgba_tuple channels) alphas.
Proof.
  simpl. f_equal. induction alphas as [|a alphas IH]; simpl; [done|].
  by rewrite IH.
Qed.

Lemma to_rgba_lists (colors : list plot.Color) (alphas : list plot.Alpha) :
  plot.to_rgba (plot.ColorList colors) (plot.AlphaList alphas)
  = plot.StrList <$>
      plot.comprehension (λ ca, plot.to_rgba ca.1 ca.2) (zip colors alphas).
Proof.
  simpl. f_equal. revert alphas.
  induction colors as [|c colors IH]; intros [|a alphas]; simpl; try done.
  by rewrite IH.
Qed.

(** X15.  A tuple colour with a list of alpha values gives one colour string
    per alpha value, in order, each the one [to_rgba] gives for that value
    alone; it fails exactly when one of them does. *)
Theorem to_rgba_alpha_list (channels : list Z) (alphas : list float)
    (out : plot.Rgba) :
  plot.to_rgba (plot.ColorTuple channels)
    (plot.AlphaList (plot.AlphaValue <$> alphas)) = plot.Done out
  ↔ ∃ strs,
      out = plot.StrList strs
      ∧ Forall2
          (λ alpha str,
             plot.to_rgba (plot.ColorTuple channels) (plot.AlphaValue alpha)
             = plot.Done str)
          alphas strs.
Proof.
  assert (∀ strs,
    plot.comprehension (plot.to_rgba_tuple channels)
      (plot.AlphaValue <$> alphas) = plot.Done strs
    ↔ Forall2
        (λ alpha str,
           plot.to_rgba (plot.ColorTuple channels) (plot.AlphaValue alpha)
           = plot.Done str)
        alphas strs) as Hcomp.
  { intros strs. by rewrite comprehension_Done, Forall2_fmap_l. }
  change (plot.to_rgba (plot.ColorTuple channels)
            (plot.AlphaList (plot.AlphaValue <$> alphas)))
    with (plot.to_rgba_tuple channels
            (plot.AlphaList (plot.AlphaValue <$> alphas))).
  rewrite to_rgba_tuple_list.
  destruct (plot.comprehension _ _) as [strs|e]; simpl.
  - split.
    + intros [= <-]. exists strs. split; [done | by apply Hcomp].
    + intros (strs' & -> & Hstrs'). apply Hcomp in Hstrs'. by simplify_eq.
  - split; [done|]. intros (strs' & -> & Hstrs'). by apply Hcomp in Hstrs'.
Qed.

(** X16.  A list of colours with a list of alpha values is cut to the
    shorter of the two: the surplus colours or alpha values are ignored,
    without an error. *)
Theorem to_rgba_zip_truncates (colors : list plot.Color)
    (alphas : list plot.Alpha) :
  let n := (length colors `min` length alphas)%nat in
  plot.to_rgba (plot.ColorList colors) (plot.AlphaList alphas)
  = plot.to_rgba (plot.ColorList (take n colors))
      (plot.AlphaList (take n alphas)).
Proof.
  intros n. rewrite !to_rgba_lists. do 2 f_equal. subst n.
  revert alphas. induction colors as [|c colors IH]; intros [|a alphas];
    simpl; try done.
  by rewrite <- IH.
Qed.

(** The 8-bit channel values mix to themselves at alpha [1.0] and to 220 at
    alpha [0.0]. *)
Lemma mix_8bit (c : Z) :
  0 <= c <= 255 →
  plot.mix c 1%float = plot.Done c ∧ plot.mix c 0%float = plot.Done 220.
Proof.
  intros Hc.
  assert (forallb
            (λ c, match plot.mix c 1%float, plot.mix c 0%float with
                  | plot.Done x, plot.Done y => (x =? c) && (y =? 220)
                  | _, _ => false
                  end)
            (Z.of_nat <$> seq 0 256) = true) as Hall.
  { vm_compute. reflexivity. }
  rewrite forallb_forall in Hall. specialize (Hall c).
  assert (In c (Z.of_nat <$> seq 0 256)) as Hin.
  { apply list_elem_of_In, list_elem_of_fmap.
    exists (Z.to_nat c). split; [lia | apply elem_of_seq; lia]. }
  specialize (Hall Hin).
  destruct (plot.mix c 1%float) as [x|], (plot.mix c 0%float) as [y|];
    try discriminate Hall.
  by apply andb_true_iff in Hall as [->%Z.eqb_eq ->%Z.eqb_eq].
Qed.

Lemma to_rgb_8bit (r g b : Z) :
  0 <= r <= 255 → 0 <= g <= 255 → 0 <= b <= 255 →
  plot.to_rgb [r; g; b] 1%float
  = plot.Done (plot.Str ("rgb(" +:+ pretty r +:+ "," +:+ pretty g +:+ ","
                         +:+ pretty b +:+ ")"))
  ∧ plot.to_rgb [r; g; b] 0%float = plot.Done (plot.Str "rgb(220,220,220)").
Proof.
  intros [Hr1 Hr0]%mix_8bit [Hg1 Hg0]%mix_8bit [Hb1 Hb0]%mix_8bit.
  unfold plot.to_rgb, plot.comprehension.
  by rewrite Hr1, Hg1, Hb1, Hr0, Hg0, Hb0.
Qed.

(** X17.  For an RGB colour with 8-bit channels, alpha [1.0] gives the colour
    itself and alpha [0.0] gives [rgb(220,220,220)]. *)
Theorem to_rgba_opaque_and_transparent (r g b : Z) :
  0 <= r <= 255 → 0 <= g <= 255 → 0 <= b <= 255 →
  plot.to_rgba (plot.ColorTuple [r; g; b]) (plot.AlphaValue 1%float)
  = plot.Done (plot.Str ("rgb(" +:+ pretty r +:+ "," +:+ pretty g +:+ ","
                         +:+ pretty b +:+ ")"))
  ∧ plot.to_rgba (plot.ColorTuple [r; g; b]) (plot.AlphaValue 0%float)
    = plot.Done (plot.Str "rgb(220,220,220)").
Proof. intros Hr Hg Hb. by apply to_rgb_8bit. Qed.

(** X19.  The colours of a 0/1 solution: for an RGB colour with 8-bit
    channels and a list of alpha values that are each [0.0] or [1.0],
    [to_rgba] gives, value by value, the colour itself where the value is
    [1.0] and [rgb(220,220,220)] where it is [0.0]. *)
Theorem to_rgba_binary_alphas (r g b : Z) (alphas : list float) :
  0 <= r <= 255 → 0 <= g <= 255 → 0 <= b <= 255 →
  Forall (λ alpha, alpha = 0%float ∨ alpha = 1%float) alphas →
  plot.to_rgba (plot.ColorTuple [r; g; b])
    (plot.AlphaList (plot.AlphaValue <$> alphas))
  = plot.Done (plot.StrList
      ((λ alpha,
          plot.Str
            (if PrimFloat.eqb alpha 1%float
             then "rgb(" +:+ pretty r +:+ "," +:+ pretty g +:+ ","
                  +:+ pretty b +:+ ")"
             else "rgb(220,220,220)")) <$> alphas)).
Proof.
  intros Hr Hg Hb Halphas.
  destruct (to_rgb_8bit r g b Hr Hg Hb) as [H1 H0].
  change (plot.to_rgba (plot.ColorTuple [r; g; b]) ?a)
    with (plot.to_rgba_tuple [r; g; b] a).
  rewrite to_rgba_tuple_list.
  set (colour := λ alpha : float, plot.Str _).
  assert (plot.comprehension (plot.to_rgba_tuple [r; g; b])
            (plot.AlphaValue <$> alphas) = plot.Done (colour <$> alphas))
    as ->; [|done].
  apply comprehension_Done, Forall2_fmap_l, Forall2_fmap_r.
  apply Forall_Forall2_diag. eapply Forall_impl; [exact Halphas|].
  intros alpha [-> | ->]; simpl; [exact H0 | exact H1].
Qed.

(** X18.  A tuple with fewer than three channels raises [IndexError] once
    its channels are mixed, and channels after the third are mixed but do
    not show in the result. *)
Theorem to_rgba_channel_count (channels : list Z) (alpha : float) :
  Forall (λ c, ∃ z, plot.mix c alpha = plot.Done z) channels →
  ((length channels < 3)%nat →
   plot.to_rgba (plot.ColorTuple channels) (plot.AlphaValue alpha)
   = plot.Failed plot.IndexError)
  ∧ ((3 <= length channels)%nat →
     plot.to_rgba (plot.ColorTuple channels) (plot.AlphaValue alpha)
     = plot.to_rgba (plot.ColorTuple (take 3 channels))
         (plot.AlphaValue alpha)).
Proof.
  intros Hmix.
  assert (∃ zs, Forall2 (λ c z, plot.mix c alpha = plot.Done z) channels zs)
    as [zs Hzs].
  { induction Hmix as [|c channels [z Hz] _ [zs Hzs]].
    - exists []. constructor.
    - exists (z :: zs). by constructor. }
  simpl. unfold plot.to_rgb.
  assert (Forall2 (λ c z, plot.mix c alpha = plot.Done z)
            (take 3 channels) (take 3 zs)) as Hzs3.
  { by apply Forall2_take. }
  pose proof (Forall2_length _ _ _ Hzs) as Hlen.
  apply comprehension_Done in Hzs as ->, Hzs3 as ->. simpl.
  split; intros Hn.
  - destruct zs as [|? [|? [|? ?]]]; simpl in *; try done; lia.
  - destruct zs as [|? [|? [|? ?]]]; simpl in *; try done; lia.
Qed.
End Colours.

(** * The further properties at work on the chain *)

Lemma instantiate_constraints_count_witness :
  well_formed Chain.solver = true
  ∧ ∃ cs,
      NodeAppear.instantiate_constraints Chain.solver = (cs, None)
      ∧ length cs
        = sum_list_with
            (λ node,
               if decide (prev_edges (graph Chain.solver) node = [])
               then 1%nat else 2%nat)
            (nodes (graph Chain.solver)).*1.
Proof.
  split; [reflexivity|].
  exact (instantiate_constraints_count Chain.solver eq_refl).
Defined.

Lemma instantiate_constraints_raise_inv_witness :
  let solver := Chain.solver_without_B_selected in
  let cs := (NodeAppear.instantiate_constraints solver).1 in
  let e := KeyError (NodeKey Chain.B) in
  NodeAppear.instantiate_constraints solver = (cs, Some e)
  ∧ ∃ pre node post,
      (nodes (graph solver)).*1 = pre ++ node :: post
      ∧ for_yield pre (NodeAppear.loop_body solver) = (cs, None)
      ∧ ((e = KeyError (NodeKey node)
          ∧ (getitem (node_selected solver) node = None
             ∨ getitem (node_appear solver) node = None))
         ∨ ∃ edge,
             edge ∈ prev_edges (graph solver) node
             ∧ getitem (edge_selected solver) edge = None
             ∧ e = KeyError (EdgeKey edge)).
Proof.
  intros solver cs e.
  assert (NodeAppear.instantiate_constraints solver = (cs, Some e)) as Hrun.
  { reflexivity. }
  split; [exact Hrun|].
  exact (instantiate_constraints_raise_inv solver cs e Hrun).
Defined.

Lemma instantiate_constraints_missing_node_indicator_witness :
  let solver := Chain.solver_without_B_selected in
  let cs := (for_yield [Chain.A] (NodeAppear.loop_body solver)).1 in
  (nodes (graph solver)).*1 = [Chain.A] ++ Chain.B :: [Chain.C]
  ∧ for_yield [Chain.A] (NodeAppear.loop_body solver) = (cs, None)
  ∧ getitem (node_selected solver) Chain.B = None
  ∧ NodeAppear.instantiate_constraints solver
    = (cs, Some (KeyError (NodeKey Chain.B))).
Proof.
  intros solver cs. split_and!; [reflexivity..|].
  exact (instantiate_constraints_missing_node_indicator solver
           [Chain.A] Chain.B [Chain.C] cs eq_refl eq_refl eq_refl).
Defined.

Lemma instantiate_constraints_missing_edge_indicator_witness :
  let solver := Chain.solver_without_BC_selected in
  let cs := (for_yield [Chain.A; Chain.B] (NodeAppear.loop_body solver)).1 in
  (nodes (graph solver)).*1 = [Chain.A; Chain.B] ++ Chain.C :: []
  ∧ for_yield [Chain.A; Chain.B] (NodeAppear.loop_body solver) = (cs, None)
  ∧ getitem (node_selected solver) Chain.C = Some 2%nat
  ∧ prev_edges (graph solver) Chain.C = [] ++ (Chain.B, Chain.C) :: []
  ∧ getitem (edge_selected solver) (Chain.B, Chain.C) = None
  ∧ NodeAppear.instantiate_constraints solver
    = (cs, Some (KeyError (EdgeKey (Chain.B, Chain.C)))).
Proof.
  intros solver cs. split_and!; [reflexivity..|].
  exact (instantiate_constraints_missing_edge_indicator solver
           [Chain.A; Chain.B] Chain.C [] cs 2%nat [] (Chain.B, Chain.C) []
           eq_refl eq_refl eq_refl eq_refl (Forall_nil_2 _) eq_refl).
Defined.

Lemma yielded_columns_registered_witness :
  let c :=
    ilpy.set_value 0 (ilpy.set_relation ilpy.Equal
      (ilpy.set_coefficient 5 (-1) (ilpy.set_coefficient 0 1 ilpy.new))) in
  c ∈ (NodeAppear.instantiate_constraints Chain.solver).1
  ∧ is_Some (ilpy.coefficients c !! 5%nat)
  ∧ 5%nat ∈ columns Chain.solver.
Proof.
  intros c.
  assert (c ∈ (NodeAppear.instantiate_constraints Chain.solver).1) as Hc.
  { apply list_elem_of_here. }
  assert (is_Some (ilpy.coefficients c !! 5%nat)) as Hcol.
  { exists (-1). reflexivity. }
  split_and!; [exact Hc | exact Hcol|].
  exact (yielded_columns_registered Chain.solver c 5%nat Hc Hcol).
Defined.


Lemma draw_solution_alpha_attribute_witness :
  plot.draw_solution Chain.draw_nothing Chain.track_graph Chain.solver
    (λ _, 1%float) None None (Some "score"%string) None None None tt
  = Raise (RuntimeError
      "Only one of alpha_attribute and alpha_func can be given").
Proof.
  apply (draw_solution_alpha_attribute Chain.draw_nothing Chain.track_graph
           Chain.solver (λ _, 1%float) None None "score"%string None None
           None tt).
  reflexivity.
Defined.

Lemma draw_solution_alpha_functions_witness :
  ∃ position_func' alpha_node_func alpha_edge_func label_node_func
      label_edge_func,
    plot.draw_solution Chain.draw_nothing Chain.track_graph Chain.solver
      (λ _, 1%float) None None None None None None tt
    = Chain.draw_nothing Chain.track_graph position_func' alpha_node_func
        alpha_edge_func label_node_func label_edge_func tt
    ∧ (∀ node,
         alpha_node_func node
         = match getitem (node_selected Chain.solver) node with
           | Some index => Ok 1%float
           | None => Raise (KeyError (NodeKey node))
           end)
    ∧ (∀ edge,
         alpha_edge_func edge
         = match getitem (edge_selected Chain.solver) edge with
           | Some index => Ok 1%float
           | None => Raise (KeyError (EdgeKey edge))
           end).
Proof.
  exact (draw_solution_alpha_functions Chain.draw_nothing Chain.track_graph
           Chain.solver (λ _, 1%float) None None None None None tt
           eq_refl eq_refl).
Defined.

Lemma to_rgba_opaque_and_transparent_witness :
  plot.to_rgba (plot.ColorTuple [127; 30; 121]) (plot.AlphaValue 1%float)
  = plot.Done (plot.Str ("rgb(" +:+ pretty 127 +:+ "," +:+ pretty 30 +:+ ","
                         +:+ pretty 121 +:+ ")"))
  ∧ plot.to_rgba (plot.ColorTuple [127; 30; 121]) (plot.AlphaValue 0%float)
    = plot.Done (plot.Str "rgb(220,220,220)").
Proof.
  apply (to_rgba_opaque_and_transparent 127 30 121); lia.
Defined.

Lemma to_rgba_channel_count_witness :
  Forall (λ c, ∃ z, plot.mix c 0.5%float = plot.Done z) [127; 30]
  ∧ ((length [127; 30] < 3)%nat →
     plot.to_rgba (plot.ColorTuple [127; 30]) (plot.AlphaValue 0.5%float)
     = plot.Failed plot.IndexError)
  ∧ ((3 <= length [127; 30])%nat →
     plot.to_rgba (plot.ColorTuple [127; 30]) (plot.AlphaValue 0.5%float)
     = plot.to_rgba (plot.ColorTuple (take 3 [127; 30]))
         (plot.AlphaValue 0.5%float)).
Proof.
  assert (Forall (λ c, ∃ z, plot.mix c 0.5%float = plot.Done z) [127; 30])
    as Hmix.
  { repeat constructor; eexists; reflexivity. }
  split; [exact Hmix|].
  exact (to_rgba_channel_count [127; 30] 0.5%float Hmix).
Defined.

Lemma to_rgba_binary_alphas_witness :
  Forall (λ alpha, alpha = 0%float ∨ alpha = 1%float) [1%float; 0%float]
  ∧ plot.to_rgba (plot.ColorTuple [127; 30; 121])
      (plot.AlphaList (plot.AlphaValue <$> [1%float; 0%float]))
    = plot.Done (plot.StrList
        ((λ alpha,
            plot.Str
              (if PrimFloat.eqb alpha 1%float
               then "rgb(" +:+ pretty 127 +:+ "," +:+ pretty 30 +:+ ","
                    +:+ pretty 121 +:+ ")"
               else "rgb(220,220,220)")) <$> [1%float; 0%float])).
Proof.
  assert (Forall (λ alpha, alpha = 0%float ∨ alpha = 1%float)
            [1%float; 0%float]) as Halphas.
  { constructor; [by right | constructor; [by left | constructor]]. }
  split; [exact Halphas|].
  apply (to_rgba_binary_alphas 127 30 121 [1%float; 0%float]);
    [lia | lia | lia | exact Halphas].
Defined.

(** * [NodeAppear]: the whole system of constraints *)
Section NodeAppearSystem.
Context {F : Type}.
Implicit Types (solver : Solver F) (node : NodeId) (sol : Column → Z).

Lemma starts_spec (x : Z) (es : list Z) :
  starts x es = true ↔ x = 1 ∧ Forall (λ e, e = 0) es.
Proof.
  unfold starts. rewrite andb_true_iff, Z.eqb_eq, forallb_forall, Forall_forall.
  split; intros [Hx Hes]; (split; [done|]); intros e He.
  - apply Z.eqb_eq, Hes. by apply list_elem_of_In.
  - apply Z.eqb_eq, Hes. by apply list_elem_of_In.
Qed.

(** What the constraints of one node, with or without incoming edges, ask of
    an assignment whose indicators at the node are binary. *)
Lemma node_constraints_iff solver node sol cs :
  well_formed solver = true →
  node ∈ (nodes (graph solver)).*1 →
  NodeAppear.loop_body solver node = Ok cs →
  binary (selected solver sol node) →
  Forall binary (incoming solver sol node) →
  binary (indicator (node_appear solver) sol node) →
  feasible cs sol = true
  ↔ (selected solver sol node = 1
     ∨ Forall (λ e, e = 0) (incoming solver sol node))
    ∧ (indicator (node_appear solver) sol node = 1
       ↔ selected solver sol node = 1
         ∧ Forall (λ e, e = 0) (incoming solver sol node)).
Proof.
  intros Hwf Hnode Hbody Hx Hes Ha.
  destruct (well_formed_node _ _ Hwf Hnode)
    as (cx & ca & cols & Hcx & Hca & Hcols & Hnd).
  rewrite (selected_column _ _ _ _ Hcx) in *.
  rewrite (incoming_columns _ _ _ _ Hcols) in *.
  unfold indicator in *. rewrite Hca in *.
  rewrite <- (sum_list_zero_Forall _ Hes).
  pose proof (sum_list_binary _ Hes) as Hsum.
  rewrite length_fmap, <- (Forall2_length _ _ _ Hcols) in Hsum.
  destruct (prev_edges (graph solver) node) as [|e es] eqn:Hprev.
  - rewrite (loop_body_no_prev_edges _ _ _ _ Hprev Hcx Hca) in Hbody.
    injection Hbody as <-.
    apply NoDup_cons in Hnd as [[Hxa _]%not_elem_of_cons _].
    unfold feasible, ilpy.satisfied. simpl.
    rewrite lhs_set_value, lhs_set_relation, lhs_set_coefficient.
    2:{ simpl. rewrite lookup_insert_ne by done. apply lookup_empty. }
    rewrite lhs_set_coefficient, lhs_new by apply lookup_empty.
    rewrite andb_true_r, Z.eqb_eq. simpl in Hsum.
    destruct Hx as [-> | ->], Ha as [-> | ->]; lia.
  - rewrite loop_body_prev_edges with (cx := cx) (ca := ca) (cols := cols)
      in Hbody; [|by rewrite Hprev|done|done|by rewrite Hprev].
    injection Hbody as <-. rewrite Hprev.
    unfold feasible, ilpy.satisfied. simpl ilpy.relation. simpl ilpy.value.
    simpl forallb.
    rewrite !lhs_set_value, !lhs_set_relation, !lhs_general by done.
    rewrite andb_true_r, andb_true_iff, Z.leb_le, Z.geb_le.
    simpl length in *.
    set (k := Z.of_nat (S (length es))) in *.
    assert (0 < k) as Hk by (subst k; lia).
    set (total := sum_list (sol <$> cols)) in *.
    destruct Hx as [-> | ->], Ha as [-> | ->]; lia.
Qed.

(** X20.  The meaning of the whole system.  On a well-formed solver, in
    every assignment with binary indicators that satisfies all the
    constraints yielded, the appear indicator of a node is 1 exactly when
    the node is selected and none of its incoming edges is, and an incoming
    edge is selected only if the node is; this holds for nodes with and
    without incoming edges. *)
Theorem feasible_appear_iff solver sol cs node :
  well_formed solver = true →
  NodeAppear.instantiate_constraints solver = (cs, None) →
  feasible cs sol = true →
  node ∈ (nodes (graph solver)).*1 →
  binary (selected solver sol node) →
  Forall binary (incoming solver sol node) →
  binary (indicator (node_appear solver) sol node) →
  (indicator (node_appear solver) sol node = 1
   ↔ selected solver sol node = 1
     ∧ Forall (λ e, e = 0) (incoming solver sol node))
  ∧ (selected solver sol node = 1
     ∨ Forall (λ e, e = 0) (incoming solver sol node)).
Proof.
  intros Hwf Hrun Hfeasible Hnode Hx Hes Ha.
  destruct (well_formed_loop_body _ _ Hwf Hnode) as [cs' Hbody].
  destruct (instantiate_constraints_at _ _ _ Hwf Hnode Hbody)
    as (before & after & Hrun').
  rewrite Hrun in Hrun'. injection Hrun' as ->.
  unfold feasible in Hfeasible. rewrite !forallb_app in Hfeasible.
  apply andb_true_iff in Hfeasible as [_ Hfeasible].
  apply andb_true_iff in Hfeasible as [Hfeasible _].
  apply (node_constraints_iff _ _ _ _ Hwf Hnode Hbody Hx Hes Ha) in Hfeasible.
  by destruct Hfeasible.
Qed.

Lemma appear_assignment_other solver sol (col : Column) :
  col ∉ (node_appear solver).*2 →
  appear_assignment solver sol col = sol col.
Proof.
  intros Hcol. unfold appear_assignment.
  destruct (list_find _ _) as [[i [node' col']]|] eqn:Hfind; [|done].
  apply list_find_Some in Hfind as (Hi & Heq & _). simpl in Heq. subst col'.
  destruct Hcol. apply list_elem_of_fmap. exists (node', col).
  split; [done|]. by eapply list_elem_of_lookup_2.
Qed.

Lemma appear_assignment_appear solver sol node ca :
  NoDup (node_appear solver).*2 →
  getitem (node_appear solver) node = Some ca →
  appear_assignment solver sol ca
  = if starts (selected solver sol node) (incoming solver sol node)
    then 1 else 0.
Proof.
  intros Hnd Hca. unfold appear_assignment.
  destruct (list_find _ _) as [[i [node' col']]|] eqn:Hfind.
  - apply list_find_Some in Hfind as (Hi & Heq & _). simpl in Heq. subst col'.
    apply list_elem_of_lookup_2 in Hi. apply getitem_elem_of in Hca.
    by rewrite (elem_of_snd_inj _ _ _ _ Hnd Hi Hca).
  - apply list_find_None in Hfind. rewrite Forall_forall in Hfind.
    apply getitem_elem_of in Hca. by destruct (Hfind _ Hca).
Qed.

(** X21.  The system never rules out a consistent selection.  On a
    well-formed solver, take a binary assignment of the node and edge
    indicators in which, at every node, an incoming edge is selected only
    if the node is.  Setting every appear indicator to the track-start
    indicator of its node, and changing nothing else, satisfies every
    constraint yielded. *)
Theorem consistent_selection_feasible solver sol :
  well_formed solver = true →
  (∀ node, node ∈ (nodes (graph solver)).*1 →
     binary (selected solver sol node)
     ∧ Forall binary (incoming solver sol node)
     ∧ (selected solver sol node = 1
        ∨ Forall (λ e, e = 0) (incoming solver sol node))) →
  ∃ cs,
    NodeAppear.instantiate_constraints solver = (cs, None)
    ∧ feasible cs (appear_assignment solver sol) = true
    ∧ (∀ col, col ∉ (node_appear solver).*2 →
         appear_assignment solver sol col = sol col)
    ∧ (∀ node, node ∈ (nodes (graph solver)).*1 →
         indicator (node_appear solver) (appear_assignment solver sol) node
         = if starts (selected solver sol node) (incoming solver sol node)
           then 1 else 0).
Proof.
  intros Hwf Hsol.
  assert (NoDup (columns solver)) as Hcolumns.
  { unfold well_formed in Hwf. apply andb_true_iff in Hwf as [Hwf _].
    by apply bool_decide_eq_true in Hwf. }
  unfold columns in Hcolumns.
  apply NoDup_app in Hcolumns as (_ & Hdisj1 & Hcolumns).
  apply NoDup_app in Hcolumns as (_ & Hdisj2 & Hna).
  assert (∀ node, node ∈ (nodes (graph solver)).*1 →
    selected solver (appear_assignment solver sol) node
    = selected solver sol node
    ∧ incoming solver (appear_assignment solver sol) node
      = incoming solver sol node
    ∧ indicator (node_appear solver) (appear_assignment solver sol) node
      = if starts (selected solver sol node) (incoming solver sol node)
        then 1 else 0) as Hread.
  { intros node Hnode.
    destruct (well_formed_node _ _ Hwf Hnode)
      as (cx & ca & cols & Hcx & Hca & Hcols & _).
    rewrite !(selected_column _ _ _ _ Hcx), !(incoming_columns _ _ _ _ Hcols).
    unfold indicator. rewrite Hca. split_and!.
    - apply appear_assignment_other. intros Hin.
      apply (Hdisj1 cx); [by eapply getitem_value|].
      apply elem_of_app. by right.
    - apply list_fmap_ext. intros i col Hcol.
      apply appear_assignment_other. intros Hin.
      apply (Hdisj2 col); [|done].
      apply list_elem_of_lookup_2 in Hcol.
      clear -Hcols Hcol. induction Hcols as [|e c es cols He _ IH].
      + by apply elem_of_nil in Hcol.
      + apply elem_of_cons in Hcol as [->|Hcol];
          [by eapply getitem_value | auto].
    - rewrite <- (selected_column _ sol _ _ Hcx).
      rewrite <- (incoming_columns _ sol _ _ Hcols).
      by apply appear_assignment_appear. }
  unfold NodeAppear.instantiate_constraints.
  rewrite for_yield_exhausted.
  2:{ apply Forall_forall. intros node Hnode.
      by apply well_formed_loop_body. }
  eexists. split; [reflexivity|]. split_and!.
  - unfold feasible. apply forallb_forall. intros c Hc%list_elem_of_In.
    apply list_elem_of_bind in Hc as (node & Hc & Hnode).
    destruct (well_formed_loop_body _ _ Hwf Hnode) as [cs Hbody].
    rewrite Hbody in Hc.
    destruct (Hread node Hnode) as (Hx' & Hes' & Ha').
    destruct (Hsol node Hnode) as (Hx & Hes & Himplied).
    assert (feasible cs (appear_assignment solver sol) = true) as Hfeasible.
    { apply (node_constraints_iff _ _ _ _ Hwf Hnode Hbody).
      - by rewrite Hx'.
      - by rewrite Hes'.
      - rewrite Ha'. destruct (starts _ _); [by right | by left].
      - rewrite Hx', Hes', Ha'. split; [done|].
        rewrite <- starts_spec. by destruct (starts _ _). }
    unfold feasible in Hfeasible. rewrite forallb_forall in Hfeasible.
    by apply Hfeasible, list_elem_of_In.
  - by apply appear_assignment_other.
  - intros node Hnode. by apply Hread.
Qed.
End NodeAppearSystem.

Lemma feasible_appear_iff_witness :
  let sol := appear_assignment Chain.solver Chain.A_B_and_AB in
  let cs := (NodeAppear.instantiate_constraints Chain.solver).1 in
  well_formed Chain.solver = true
  ∧ NodeAppear.instantiate_constraints Chain.solver = (cs, None)
  ∧ feasible cs sol = true
  ∧ Chain.B ∈ (nodes (graph Chain.solver)).*1
  ∧ binary (selected Chain.solver sol Chain.B)
  ∧ Forall binary (incoming Chain.solver sol Chain.B)
  ∧ binary (indicator (node_appear Chain.solver) sol Chain.B)
  ∧ (indicator (node_appear Chain.solver) sol Chain.B = 1
     ↔ selected Chain.solver sol Chain.B = 1
       ∧ Forall (λ e, e = 0) (incoming Chain.solver sol Chain.B))
  ∧ (selected Chain.solver sol Chain.B = 1
     ∨ Forall (λ e, e = 0) (incoming Chain.solver sol Chain.B)).
Proof.
  intros sol cs.
  assert (Chain.B ∈ (nodes (graph Chain.solver)).*1) as Hnode.
  { apply list_elem_of_In. simpl. auto. }
  assert (binary (selected Chain.solver sol Chain.B)) as Hx.
  { right. reflexivity. }
  assert (Forall binary (incoming Chain.solver sol Chain.B)) as Hes.
  { constructor; [right; reflexivity | constructor]. }
  assert (binary (indicator (node_appear Chain.solver) sol Chain.B)) as Ha.
  { left. reflexivity. }
  repeat (split; [first [reflexivity | assumption]|]).
  exact (feasible_appear_iff Chain.solver sol cs Chain.B
           eq_refl eq_refl eq_refl Hnode Hx Hes Ha).
Defined.

Lemma consistent_selection_feasible_witness :
  well_formed Chain.solver = true
  ∧ ∃ cs,
      NodeAppear.instantiate_constraints Chain.solver = (cs, None)
      ∧ feasible cs (appear_assignment Chain.solver Chain.A_B_and_AB) = true
      ∧ (∀ col, col ∉ (node_appear Chain.solver).*2 →
           appear_assignment Chain.solver Chain.A_B_and_AB col
           = Chain.A_B_and_AB col)
      ∧ (∀ node, node ∈ (nodes (graph Chain.solver)).*1 →
           indicator (node_appear Chain.solver)
             (appear_assignment Chain.solver Chain.A_B_and_AB) node
           = if starts (selected Chain.solver Chain.A_B_and_AB node)
                  (incoming Chain.solver Chain.A_B_and_AB node)
             then 1 else 0).
Proof.
  split; [reflexivity|].
  apply (consistent_selection_feasible Chain.solver Chain.A_B_and_AB);
    [reflexivity|].
  intros node Hnode.
  repeat (apply elem_of_cons in Hnode as [->|Hnode];
          [split_and!;
           [first [by left | by right]
           |repeat constructor; first [by left | by right]
           |first [by left | right; repeat constructor]]|]).
  by apply elem_of_nil in Hnode.
Defined.
